(** * gason: the NaN-boxed JSON value, its arena and its parser

    A shallow embedding of [gason.h] and a verification of the properties
    its specification states about it.  The first part is the program:
    the header as it is written, and the two functions it only declares,
    [JsonAllocator::allocate] and [json_parse], modelled from the
    specification.  The second part holds the notions the properties are
    stated with, the third the proofs.

    Conventions.
    - A 64-bit word ([uint64_t]) is a [Z] in [0, 2^64); every C++ cast and
      every shift that can wrap has its wrap-around written out.
    - A [double] is represented by its IEEE-754 binary64 bit pattern; the
      [union { uint64_t i; double f; }] of [JsonValue] is then one word
      read through two names.
    - A pointer is the 64-bit address it holds; [nullptr] is [0].
    - [assert(c)] aborts the program when [c] is false: a function with an
      assertion returns an [option], [None] being the abort. *)

From Stdlib Require Import ZArith Lia Bool List Sorted Ascii String SpecFloat.
From stdpp Require Import base option list gmap.

Local Open Scope Z_scope.

(** * Part I: the program *)

(** ** Machine integers *)

Module Word.

(** [(uint64_t)z] *)
Definition u64 (z : Z) : Z := z mod 2 ^ 64.

(** [(int64_t)z]: the two's complement reading of the low 64 bits *)
Definition s64 (z : Z) : Z :=
  let w := z mod 2 ^ 64 in if w <? 2 ^ 63 then w else w - 2 ^ 64.

(** [(int)z], a 32-bit [int] *)
Definition s32 (z : Z) : Z :=
  let w := z mod 2 ^ 32 in if w <? 2 ^ 31 then w else w - 2 ^ 32.

(** [x << n] on [uint64_t] *)
Definition shl64 (x n : Z) : Z := u64 (Z.shiftl x n).

Definition is_u64 (z : Z) : Prop := 0 <= z < 2 ^ 64.

End Word.

Import Word.

(** ** gason.h, lines 20-34: the constants and the tag enumeration *)

Definition JSON_VALUE_PAYLOAD_MASK : Z := 0x00007FFFFFFFFFFF.
Definition JSON_VALUE_NAN_MASK : Z := 0x7FF8000000000000.
Definition JSON_VALUE_NULL : Z := 0x7FFF800000000000.
Definition JSON_VALUE_TAG_MASK : Z := 0xF.
Definition JSON_VALUE_TAG_SHIFT : Z := 47.

(** [enum JsonTag].  [getTag] converts an arbitrary 4-bit field to
    [JsonTag], so a [JsonTag] can hold a value that is no enumerator; the
    enumeration is therefore embedded by its integer value.  Its value
    range is that of a 4-bit field, [JsonTag_wf]. *)
Definition JsonTag : Type := Z.

Definition JSON_TAG_NUMBER : JsonTag := 0.
Definition JSON_TAG_STRING : JsonTag := 1.
Definition JSON_TAG_BOOL : JsonTag := 2.
Definition JSON_TAG_ARRAY : JsonTag := 3.
Definition JSON_TAG_OBJECT : JsonTag := 4.
Definition JSON_TAG_NULL : JsonTag := 0xF.

Definition JsonTag_wf (tag : JsonTag) : Prop := 0 <= tag <= 0xF.

(** ** IEEE-754 binary64 bit patterns *)

Definition double : Type := Z.

Definition double_exponent (x : double) : Z := Z.land (Z.shiftr x 52) 0x7FF.
Definition double_fraction (x : double) : Z := Z.land x 0xFFFFFFFFFFFFF.

(** A NaN has all exponent bits set and a nonzero fraction. *)
Definition double_is_nan (x : double) : bool :=
  (double_exponent x =? 0x7FF) && negb (double_fraction x =? 0).

Definition double_pos_infinity : double := 0x7FF0000000000000.

(** ** gason.h, lines 39-115: [struct JsonValue] *)

Record JsonValue : Type := mkJsonValue { data_i : Z }.

(** The other member of the union: the same 64 bits. *)
Definition data_f (v : JsonValue) : double := data_i v.

(** [JsonValue()] *)
Definition JsonValue_default : JsonValue := mkJsonValue JSON_VALUE_NULL.

(** [assert(c)] *)
Definition assert (c : bool) : option unit := if c then Some tt else None.

(** [JsonValue(JsonTag tag, void *p)] *)
Definition JsonValue_tagged (tag : JsonTag) (p : Z) : option JsonValue :=
  let x := u64 p in
  assert (s32 tag <=? JSON_VALUE_TAG_MASK);;
  assert (x <=? JSON_VALUE_PAYLOAD_MASK);;
  Some (mkJsonValue
          (Z.lor (Z.lor JSON_VALUE_NAN_MASK
                        (shl64 (u64 tag) JSON_VALUE_TAG_SHIFT)) x)).

(** [explicit JsonValue(double x)] *)
Definition JsonValue_double (x : double) : JsonValue := mkJsonValue x.

(** [explicit operator bool() const] *)
Definition JsonValue_bool (v : JsonValue) : bool :=
  negb (data_i v =? JSON_VALUE_NULL).

Definition isDouble (v : JsonValue) : bool :=
  s64 (data_i v) <=? s64 JSON_VALUE_NAN_MASK.

Definition getTag (v : JsonValue) : JsonTag :=
  if isDouble v then JSON_TAG_NUMBER
  else Z.land (Z.shiftr (data_i v) JSON_VALUE_TAG_SHIFT) JSON_VALUE_TAG_MASK.

Definition getPayload (v : JsonValue) : option Z :=
  assert (negb (isDouble v));;
  Some (Z.land (data_i v) JSON_VALUE_PAYLOAD_MASK).

Definition toNumber (v : JsonValue) : option double :=
  assert (getTag v =? JSON_TAG_NUMBER);;
  Some (data_f v).

(** [(bool)p] of an integer *)
Definition bool_of_Z (p : Z) : bool := negb (p =? 0).

Definition toBool (v : JsonValue) : option bool :=
  assert (getTag v =? JSON_TAG_BOOL);;
  p ← getPayload v; Some (bool_of_Z p).

(** [char *toString()]: the address of the first byte *)
Definition toString (v : JsonValue) : option Z :=
  assert (getTag v =? JSON_TAG_STRING);;
  getPayload v.

(** [JsonElement *toElement()] *)
Definition toElement (v : JsonValue) : option Z :=
  assert (getTag v =? JSON_TAG_ARRAY);;
  getPayload v.

(** [JsonPair *toPair()] *)
Definition toPair (v : JsonValue) : option Z :=
  assert (getTag v =? JSON_TAG_OBJECT);;
  getPayload v.

(** ** gason.h, lines 117-128: the list cells *)

Record JsonElement : Type := mkJsonElement {
  element_next : Z;
  element_value : JsonValue
}.

Record JsonPair : Type := mkJsonPair {
  pair_next : Z;
  pair_key : Z;
  pair_value : JsonValue
}.

(** ** gason.h, lines 130-140: [enum JsonParseStatus] *)

Inductive JsonParseStatus : Type :=
| JSON_PARSE_OK
| JSON_PARSE_BAD_NUMBER
| JSON_PARSE_BAD_STRING
| JSON_PARSE_UNKNOWN_IDENTIFIER
| JSON_PARSE_OVERFLOW
| JSON_PARSE_UNDERFLOW
| JSON_PARSE_MISMATCH_BRACKET
| JSON_PARSE_UNEXPECTED_CHARACTER.

(** The integer each enumerator stands for (none is given explicitly, so
    they count up from zero). *)
Definition JsonParseStatus_value (s : JsonParseStatus) : Z :=
  match s with
  | JSON_PARSE_OK => 0
  | JSON_PARSE_BAD_NUMBER => 1
  | JSON_PARSE_BAD_STRING => 2
  | JSON_PARSE_UNKNOWN_IDENTIFIER => 3
  | JSON_PARSE_OVERFLOW => 4
  | JSON_PARSE_UNDERFLOW => 5
  | JSON_PARSE_MISMATCH_BRACKET => 6
  | JSON_PARSE_UNEXPECTED_CHARACTER => 7
  end.

(** ** The arena and the memory of the tree *)

(** gason.h, lines 6-18: [struct JsonAllocator] and its zones.  [end] is
    a keyword here, so the fields of [Zone] carry a prefix. *)
Record Zone : Type := mkZone { zone_next : Z; zone_end : Z }.

Record JsonAllocator : Type := mkJsonAllocator { head : Z }.

Definition nullptr : Z := 0.

(** The memory the arena and the tree live in: the zone headers, the array
    cells and the object cells, each at the address of its first byte, and
    the address at which the host places the next block it hands out. *)
Record Memory : Type := mkMemory {
  mem_brk : Z;
  mem_zones : gmap Z Zone;
  mem_elements : gmap Z JsonElement;
  mem_pairs : gmap Z JsonPair
}.

(** [JsonAllocator()]: the implicit constructor runs the default member
    initializer [head = nullptr] and nothing else; the memory passes
    through it. *)
Definition JsonAllocator_new (m : Memory) : JsonAllocator * Memory :=
  (mkJsonAllocator nullptr, m).

(** The zones an allocator owns: the chain from [head] along [next]. *)
Fixpoint zone_chain (fuel : nat) (m : Memory) (z : Z) : list Z :=
  match fuel with
  | O => []
  | S fuel' =>
      if z =? nullptr then []
      else match mem_zones m !! z with
           | Some zn => z :: zone_chain fuel' m (zone_next zn)
           | None => []
           end
  end.

Definition owned_zones (a : JsonAllocator) (m : Memory) : list Z :=
  zone_chain (S (size (mem_zones m))) m (head a).

(** ** Calling the read accessors on an object *)

Module Accessors.

(** The object a member function is called on, with the memory and the
    text buffer its payload may point into. *)
Record Object : Type := mkObject {
  this : JsonValue;
  memory : Memory;
  buffer : list Ascii.ascii
}.

Inductive Accessor : Type :=
| GetTag | ToNumber | ToBool | ToString | ToElement | ToPair.

Inductive Result : Type :=
| RTag (tag : JsonTag)
| RNumber (x : double)
| RBool (b : bool)
| RPointer (p : Z).

(** One call.  All six are [const] member functions that only read
    [data]: the object comes back as it went in.  [None] is the abort
    of a tripped assertion. *)
Definition call (a : Accessor) (o : Object) : option (Result * Object) :=
  match a with
  | GetTag => Some (RTag (getTag (this o)), o)
  | ToNumber => x ← toNumber (this o); Some (RNumber x, o)
  | ToBool => b ← toBool (this o); Some (RBool b, o)
  | ToString => p ← toString (this o); Some (RPointer p, o)
  | ToElement => p ← toElement (this o); Some (RPointer p, o)
  | ToPair => p ← toPair (this o); Some (RPointer p, o)
  end.

(** A sequence of calls, one after the other on the same object. *)
Fixpoint calls (l : list Accessor) (o : Object)
  : option (list Result * Object) :=
  match l with
  | [] => Some ([], o)
  | a :: l' =>
      '(r, o1) ← call a o;
      '(rs, o2) ← calls l' o1;
      Some (r :: rs, o2)
  end.

End Accessors.

(** ** Allocation from the arena *)

Section Allocate.

(** The default capacity of a zone.  The specification fixes no value, so
    it stays a parameter of the model. *)
Variable JSON_ZONE_SIZE : Z.

(** [sizeof(Zone)]: two 64-bit pointers *)
Definition sizeof_Zone : Z := 16.

(** The first multiple of [align] that is not below [p]. *)
Definition align_up (p align : Z) : Z := (p + (align - 1)) / align * align.

(** The host allocator that the arena takes its zones from: each block is
    placed, 16-aligned, above every block handed out before.  The address
    space has 64 bits; when it is used up the host has no memory left,
    which ends the program (section 7: a fatal abort). *)
Definition malloc (m : Memory) (size : Z) : option (Z * Memory) :=
  let base := align_up (mem_brk m) 16 in
  assert (base + size <=? 2 ^ 64);;
  Some (base,
        mkMemory (base + size) (mem_zones m) (mem_elements m) (mem_pairs m)).

(** Modelled from the spec: [JsonAllocator::allocate], which gason.h
    declares (line 17) and whose body is not among the sources.  Section
    4.1: memory is carved from the current zone by advancing its end; when
    the request does not fit (or there is no zone yet) a new zone is
    acquired, of the default capacity or larger if the request needs it,
    and pushed in front of the others; the result is aligned to
    [align], and nothing is ever freed. *)
Definition allocate (a : JsonAllocator) (m : Memory) (n align : Z)
  : option (Z * JsonAllocator * Memory) :=
  let room :=
    match mem_zones m !! head a with
    | Some z =>
        let p := align_up (zone_end z) align in
        if negb (head a =? nullptr) && (p + n <=? head a + JSON_ZONE_SIZE)
        then Some (z, p) else None
    | None => None
    end in
  match room with
  | Some (z, p) =>
      Some (p, a,
            mkMemory (mem_brk m)
                     (<[head a := mkZone (zone_next z) (p + n)]> (mem_zones m))
                     (mem_elements m) (mem_pairs m))
  | None =>
      let size := Z.max JSON_ZONE_SIZE (sizeof_Zone + n + align) in
      '(base, m1) ← malloc m size;
      let p := align_up (base + sizeof_Zone) align in
      Some (p, mkJsonAllocator base,
            mkMemory (mem_brk m1)
                     (<[base := mkZone (head a) (p + n)]> (mem_zones m1))
                     (mem_elements m1) (mem_pairs m1))
  end.

End Allocate.

(** ** The tokenizer *)

(** gason.h declares [json_parse] (line 142); its body is not among the
    sources.  This section and the next model it from the specification,
    section 4.3, as a tokenizer and a builder.  A cursor moves over the
    mutable buffer; space, tab, newline and carriage return are skipped
    between tokens; strings are decoded in place and terminated by a NUL;
    numbers have an optional sign, an integer part, an optional fraction
    and an optional exponent; the literals are [true], [false] and
    [null].  (Section 2 also speaks of arena memory for every string;
    section 4.3, which is followed here, keeps strings in the buffer.) *)

(** The buffer: the bytes the cursor has passed, which decoding may
    overwrite, and the bytes still to be read, which nothing touches.
    The cursor is at offset [length consumed]; the text ends at its last
    byte or at the first NUL. *)
Record Buffer : Type := mkBuffer {
  consumed : list ascii;
  unread : list ascii
}.

Definition offset (b : Buffer) : nat := length (consumed b).

Definition code (c : ascii) : Z := Z.of_N (N_of_ascii c).
Definition chr (z : Z) : ascii := ascii_of_N (Z.to_N z).

Definition NUL : ascii := chr 0.
Definition quote : ascii := chr 34.
Definition backslash : ascii := chr 92.

Definition is_space (c : ascii) : bool :=
  (code c =? 32) || (code c =? 9) || (code c =? 10) || (code c =? 13).

Definition is_digit (c : ascii) : bool := (48 <=? code c) && (code c <=? 57).

Definition is_letter (c : ascii) : bool :=
  ((97 <=? code c) && (code c <=? 122)) || ((65 <=? code c) && (code c <=? 90)).

(** A number ends at the end of the text, at white space or at a
    structural character. *)
Definition is_delimiter (c : ascii) : bool :=
  (code c =? 0) || is_space c
  || (c =? ",")%char || (c =? ":")%char
  || (c =? "]")%char || (c =? "}")%char.

(** Modelled from the spec: the white-space skipping of the missing
    [json_parse].  Moves the cursor over space, tab, newline and carriage
    return. *)
Fixpoint skip_space (c r : list ascii) : Buffer :=
  match r with
  | ch :: r' => if is_space ch then skip_space (c ++ [ch]) r' else mkBuffer c r
  | [] => mkBuffer c r
  end.

(** *** Numbers *)

(** Moves the leading digits from the unread to the consumed bytes. *)
Fixpoint span_digits (c r : list ascii) : list ascii * Buffer :=
  match r with
  | ch :: r' =>
      if is_digit ch
      then let '(ds, b) := span_digits (c ++ [ch]) r' in (ch :: ds, b)
      else ([], mkBuffer c r)
  | [] => ([], mkBuffer c r)
  end.

Definition digits_value (ds : list ascii) : Z :=
  fold_left (fun acc ch => 10 * acc + (code ch - 48)) ds 0.

(** The double nearest to [mant * 10 ^ exp10] (ties to even), by one
    correctly rounded division of two integers. *)
Definition decimal_to_binary64 (neg : bool) (mant exp10 : Z) : spec_float :=
  let num := if 0 <=? exp10 then mant * 10 ^ exp10 else mant in
  let den := if 0 <=? exp10 then 1 else 10 ^ (- exp10) in
  match num, den with
  | Zpos n, Zpos d =>
      SFdiv 53 1024 (S754_finite neg n 0) (S754_finite false d 0)
  | _, _ => S754_zero neg
  end.

(** The bit pattern of a binary64 value in canonical form. *)
Definition binary64_bits (f : spec_float) : double :=
  let sign (s : bool) := if s then 2 ^ 63 else 0 in
  match f with
  | S754_zero s => sign s
  | S754_infinity s => sign s + double_pos_infinity
  | S754_nan => JSON_VALUE_NAN_MASK
  | S754_finite s m e =>
      if Zpos m <? 2 ^ 52 then sign s + Zpos m
      else sign s + (e + 1075) * 2 ^ 52 + (Zpos m - 2 ^ 52)
  end.

(** The outcome of scanning one token. *)
Inductive Scan (A : Type) : Type :=
| ScanOk (a : A) (b : Buffer)
| ScanError (status : JsonParseStatus) (b : Buffer)
| ScanAbort.

Arguments ScanOk {A} a b.
Arguments ScanError {A} status b.
Arguments ScanAbort {A}.

(** Modelled from the spec: the range check on numbers of the missing
    [json_parse].  A literal whose magnitude is beyond the doubles is an
    overflow, a nonzero one that rounds to zero an underflow: neither
    infinity nor a silent zero is produced. *)
Definition number_value (neg : bool) (mant exp10 : Z) (b : Buffer)
  : Scan JsonValue :=
  match decimal_to_binary64 neg mant exp10 with
  | S754_infinity _ => ScanError JSON_PARSE_OVERFLOW b
  | S754_nan => ScanError JSON_PARSE_BAD_NUMBER b
  | S754_zero s =>
      if mant =? 0 then ScanOk (JsonValue_double (binary64_bits (S754_zero s))) b
      else ScanError JSON_PARSE_UNDERFLOW b
  | f => ScanOk (JsonValue_double (binary64_bits f)) b
  end.

(** The exponent part, if there is one: [e] or [E], an optional sign and
    at least one digit. *)
Definition scan_exponent (b : Buffer) : Scan Z :=
  match unread b with
  | ch :: r =>
      if (ch =? "e")%char || (ch =? "E")%char then
        let c1 := consumed b ++ [ch] in
        let '(neg, c2, r2) :=
          match r with
          | sg :: r' =>
              if (sg =? "-")%char then (true, c1 ++ [sg], r')
              else if (sg =? "+")%char then (false, c1 ++ [sg], r')
              else (false, c1, r)
          | [] => (false, c1, r)
          end in
        let '(ds, b') := span_digits c2 r2 in
        match ds with
        | [] => ScanError JSON_PARSE_BAD_NUMBER b'
        | _ => ScanOk (if neg : bool then - digits_value ds else digits_value ds) b'
        end
      else ScanOk 0 b
  | [] => ScanOk 0 b
  end.

(** The fraction part, if there is one: a point and at least one digit. *)
Definition scan_fraction (b : Buffer) : Scan (list ascii) :=
  match unread b with
  | ch :: r =>
      if (ch =? ".")%char then
        let '(ds, b') := span_digits (consumed b ++ [ch]) r in
        match ds with
        | [] => ScanError JSON_PARSE_BAD_NUMBER b'
        | _ => ScanOk ds b'
        end
      else ScanOk [] b
  | [] => ScanOk [] b
  end.

(** Modelled from the spec: the number scanner of the missing
    [json_parse], the cursor being at the first byte of the number.  An
    optional [-], an integer part without a leading zero, an optional
    fraction, an optional exponent; then a delimiter has to follow.
    Anything else is a bad number. *)
Definition scan_number (b : Buffer) : Scan JsonValue :=
  let '(neg, c1, r1) :=
    match unread b with
    | ch :: r => if (ch =? "-")%char then (true, consumed b ++ [ch], r)
                 else (false, consumed b, unread b)
    | [] => (false, consumed b, unread b)
    end in
  let '(ip, b2) := span_digits c1 r1 in
  match ip with
  | [] => ScanError JSON_PARSE_BAD_NUMBER b2
  | d :: ip' =>
      if (d =? "0")%char && negb (Nat.eqb (length ip') 0)
      then ScanError JSON_PARSE_BAD_NUMBER b2
      else
        match scan_fraction b2 with
        | ScanOk fp b3 =>
            match scan_exponent b3 with
            | ScanOk e b4 =>
                if match unread b4 with
                   | ch :: _ => is_delimiter ch
                   | [] => true
                   end
                then number_value neg (digits_value (ip ++ fp))
                                  (e - Z.of_nat (length fp)) b4
                else ScanError JSON_PARSE_BAD_NUMBER b4
            | ScanError st b4 => ScanError st b4
            | ScanAbort => ScanAbort
            end
        | ScanError st b3 => ScanError st b3
        | ScanAbort => ScanAbort
        end
  end.

(** *** Strings *)

(** Overwrites the bytes from offset [w] on. *)
Fixpoint write_bytes (w : nat) (bs : list ascii) (c : list ascii)
  : list ascii :=
  match bs with
  | [] => c
  | x :: bs' => write_bytes (S w) bs' (<[w := x]> c)
  end.

(** The UTF-8 encoding of a code point. *)
Definition utf8 (cp : Z) : list ascii :=
  if cp <? 0x80 then [chr cp]
  else if cp <? 0x800 then
    [chr (Z.lor 0xC0 (Z.shiftr cp 6)); chr (Z.lor 0x80 (Z.land cp 0x3F))]
  else if cp <? 0x10000 then
    [chr (Z.lor 0xE0 (Z.shiftr cp 12));
     chr (Z.lor 0x80 (Z.land (Z.shiftr cp 6) 0x3F));
     chr (Z.lor 0x80 (Z.land cp 0x3F))]
  else
    [chr (Z.lor 0xF0 (Z.shiftr cp 18));
     chr (Z.lor 0x80 (Z.land (Z.shiftr cp 12) 0x3F));
     chr (Z.lor 0x80 (Z.land (Z.shiftr cp 6) 0x3F));
     chr (Z.lor 0x80 (Z.land cp 0x3F))].

Definition is_high_surrogate (u : Z) : bool := (0xD800 <=? u) && (u <=? 0xDBFF).
Definition is_low_surrogate (u : Z) : bool := (0xDC00 <=? u) && (u <=? 0xDFFF).

(** The code point above the basic plane that a surrogate pair stands for. *)
Definition combine_surrogates (hi lo : Z) : Z :=
  0x10000 + (hi - 0xD800) * 0x400 + (lo - 0xDC00).

Definition hex_value (c : ascii) : option Z :=
  if is_digit c then Some (code c - 48)
  else if (97 <=? code c) && (code c <=? 102) then Some (code c - 87)
  else if (65 <=? code c) && (code c <=? 70) then Some (code c - 55)
  else None.

(** The byte a one-letter escape stands for. *)
Definition simple_escape (c : ascii) : option ascii :=
  if (c =? quote)%char then Some quote
  else if (c =? backslash)%char then Some backslash
  else if (c =? "/")%char then Some "/"%char
  else if (c =? "b")%char then Some (chr 8)
  else if (c =? "f")%char then Some (chr 12)
  else if (c =? "n")%char then Some (chr 10)
  else if (c =? "r")%char then Some (chr 13)
  else if (c =? "t")%char then Some (chr 9)
  else None.

(** Where the decoder is inside a string: in plain text, after a
    backslash, inside the four hex digits of a [\u] escape (with the high
    surrogate that came before, if any), or after a high surrogate, where
    a second [\u] escape has to follow. *)
Inductive StringMode : Type :=
| InText
| InEscape
| InHex (high : option Z) (k : nat) (acc : Z)
| WantBackslash (high : Z)
| WantU (high : Z).

(** Modelled from the spec: the string scanner of the missing
    [json_parse], which decodes in place.  The cursor reads one byte per
    step; [w] is the offset the next decoded byte goes to, which never
    passes the cursor.  At the closing quote the decoded bytes are
    terminated by a NUL.  The end of the text inside the string and a
    malformed escape are bad strings. *)
Fixpoint scan_string (mode : StringMode) (w : nat) (c r : list ascii)
  : Scan unit :=
  match r with
  | [] => ScanError JSON_PARSE_BAD_STRING (mkBuffer c r)
  | ch :: r' =>
      let c' := c ++ [ch] in
      let bad := ScanError JSON_PARSE_BAD_STRING (mkBuffer c r) in
      if code ch =? 0 then bad
      else
        match mode with
        | InText =>
            if (ch =? quote)%char then ScanOk tt (mkBuffer (<[w := NUL]> c') r')
            else if (ch =? backslash)%char then scan_string InEscape w c' r'
            else scan_string InText (S w) (<[w := ch]> c') r'
        | InEscape =>
            match simple_escape ch with
            | Some x => scan_string InText (S w) (<[w := x]> c') r'
            | None =>
                if (ch =? "u")%char then scan_string (InHex None 0 0) w c' r'
                else bad
            end
        | InHex high k acc =>
            match hex_value ch with
            | None => bad
            | Some d =>
                let u := 16 * acc + d in
                if (k <? 3)%nat then scan_string (InHex high (S k) u) w c' r'
                else
                  match high with
                  | None =>
                      if is_high_surrogate u
                      then scan_string (WantBackslash u) w c' r'
                      else if is_low_surrogate u then bad
                      else scan_string InText (w + length (utf8 u))
                                       (write_bytes w (utf8 u) c') r'
                  | Some hi =>
                      if is_low_surrogate u
                      then
                        let cp := combine_surrogates hi u in
                        scan_string InText (w + length (utf8 cp))
                                    (write_bytes w (utf8 cp) c') r'
                      else bad
                  end
            end
        | WantBackslash hi =>
            if (ch =? backslash)%char then scan_string (WantU hi) w c' r'
            else bad
        | WantU hi =>
            if (ch =? "u")%char then scan_string (InHex (Some hi) 0 0) w c' r'
            else bad
        end
  end.

(** *** Tokens *)

Inductive Token : Type :=
| TokValue (v : JsonValue)
| TokLBracket
| TokRBracket
| TokLBrace
| TokRBrace
| TokComma
| TokColon
| TokEnd.

(** Moves the leading letters from the unread to the consumed bytes. *)
Fixpoint span_letters (c r : list ascii) : list ascii * Buffer :=
  match r with
  | ch :: r' =>
      if is_letter ch
      then let '(ls, b) := span_letters (c ++ [ch]) r' in (ch :: ls, b)
      else ([], mkBuffer c r)
  | [] => ([], mkBuffer c r)
  end.

Definition lift_value (v : option JsonValue) (b : Buffer) : Scan Token :=
  match v with
  | Some x => ScanOk (TokValue x) b
  | None => ScanAbort
  end.

Section Tokenizer.

(** The address of the first byte of the buffer: the [str] argument of
    [json_parse]. *)
Variable str : Z.

(** Modelled from the spec: the literal scanner of the missing
    [json_parse].  A bare word is one of the three literals or an unknown
    identifier. *)
Definition scan_literal (b : Buffer) : Scan Token :=
  let '(ls, b') := span_letters (consumed b) (unread b) in
  let word := string_of_list_ascii ls in
  if (word =? "true")%string
  then lift_value (JsonValue_tagged JSON_TAG_BOOL 1) b'
  else if (word =? "false")%string
  then lift_value (JsonValue_tagged JSON_TAG_BOOL 0) b'
  else if (word =? "null")%string
  then lift_value (JsonValue_tagged JSON_TAG_NULL nullptr) b'
  else ScanError JSON_PARSE_UNKNOWN_IDENTIFIER b.

(** Modelled from the spec: the dispatch on the first character of the
    missing [json_parse], the cursor being at the first byte of a token.
    A string token holds the address of its first byte, inside the
    buffer.  On an error the cursor is left where the failure was
    detected. *)
Definition scan_token (b : Buffer) : Scan Token :=
  match unread b with
  | [] => ScanOk TokEnd b
  | ch :: r =>
      let c' := consumed b ++ [ch] in
      if code ch =? 0 then ScanOk TokEnd b
      else if (ch =? "[")%char then ScanOk TokLBracket (mkBuffer c' r)
      else if (ch =? "]")%char then ScanOk TokRBracket (mkBuffer c' r)
      else if (ch =? "{")%char then ScanOk TokLBrace (mkBuffer c' r)
      else if (ch =? "}")%char then ScanOk TokRBrace (mkBuffer c' r)
      else if (ch =? ",")%char then ScanOk TokComma (mkBuffer c' r)
      else if (ch =? ":")%char then ScanOk TokColon (mkBuffer c' r)
      else if (ch =? quote)%char then
        match scan_string InText (length c') c' r with
        | ScanOk _ b' =>
            lift_value
              (JsonValue_tagged JSON_TAG_STRING (str + Z.of_nat (length c'))) b'
        | ScanError st b' => ScanError st b'
        | ScanAbort => ScanAbort
        end
      else if (ch =? "-")%char || is_digit ch then
        match scan_number b with
        | ScanOk v b' => ScanOk (TokValue v) b'
        | ScanError st b' => ScanError st b'
        | ScanAbort => ScanAbort
        end
      else if is_letter ch then scan_literal b
      else ScanError JSON_PARSE_UNEXPECTED_CHARACTER b
  end.

(** Modelled from the spec: the tokenizer of the missing [json_parse].
    White space is skipped, then one token is scanned; the token comes
    with the offset of its first byte. *)
Definition next_token (b : Buffer) : Scan (nat * Token) :=
  let b1 := skip_space (consumed b) (unread b) in
  match scan_token b1 with
  | ScanOk tok b2 => ScanOk (offset b1, tok) b2
  | ScanError st b2 => ScanError st b2
  | ScanAbort => ScanAbort
  end.

End Tokenizer.

(** ** The parser *)

(** The state [json_parse] works on: the buffer with its cursor, the
    allocator and the memory of the arena. *)
Record State : Type := mkState {
  buf : Buffer;
  allocator : JsonAllocator;
  memory : Memory
}.

(** How a run ends: with a result, with a parse error at an offset of the
    buffer, with the abort of a tripped assertion, or, for the recursive
    functions below, with the recursion budget used up. *)
Inductive Outcome (A : Type) : Type :=
| Done (a : A) (s : State)
| Failed (status : JsonParseStatus) (pos : nat) (s : State)
| Aborted
| OutOfFuel.

Arguments Done {A} a s.
Arguments Failed {A} status pos s.
Arguments Aborted {A}.
Arguments OutOfFuel {A}.

(** Sequencing: the first error or abort ends the run. *)
Definition bind {A B : Type} (o : Outcome A) (k : A -> State -> Outcome B)
  : Outcome B :=
  match o with
  | Done a s => k a s
  | Failed st pos s => Failed st pos s
  | Aborted => Aborted
  | OutOfFuel => OutOfFuel
  end.

Notation "'do' x , s <- o ; k" := (bind o (fun x s => k))
  (at level 10, x name, s name, o at level 100, k at level 200,
   format "'[v' 'do'  x ,  s  <-  o ; '/' k ']'").

(** [sizeof(JsonElement)] and [sizeof(JsonPair)]: a pointer and a value,
    and a key pointer more. *)
Definition sizeof_JsonElement : Z := 16.
Definition sizeof_JsonPair : Z := 24.

Section Parser.

Variable JSON_ZONE_SIZE : Z.
Variable str : Z.

(** The builder, sections 2 and 4.3: a recursive descent over the
    tokens; every array element and object member gets a cell from the
    arena; the cells are linked as they are parsed, with a tail pointer,
    so that the link order is the source order; an error is reported
    with its kind and the offset at which it was detected. *)

(** The tokenizer run on the state of the parser. *)
Definition lex (s : State) : Outcome (nat * Token) :=
  match next_token str (buf s) with
  | ScanOk t b => Done t (mkState b (allocator s) (memory s))
  | ScanError st b => Failed st (offset b) (mkState b (allocator s) (memory s))
  | ScanAbort => Aborted
  end.

(** [JsonValue(tag, p)] inside the parser *)
Definition tagged (tag : JsonTag) (p : Z) (s : State) : Outcome JsonValue :=
  match JsonValue_tagged tag p with
  | Some v => Done v s
  | None => Aborted
  end.

(** A new array cell holding [v], not yet linked. *)
Definition new_element (v : JsonValue) (s : State) : Outcome Z :=
  match allocate JSON_ZONE_SIZE (allocator s) (memory s)
                 sizeof_JsonElement 8 with
  | Some (p, a, m) =>
      Done p (mkState (buf s) a
                (mkMemory (mem_brk m) (mem_zones m)
                          (<[p := mkJsonElement nullptr v]> (mem_elements m))
                          (mem_pairs m)))
  | None => Aborted
  end.

(** [tail->next = p] *)
Definition link_element (tail p : Z) (s : State) : State :=
  let m := memory s in
  mkState (buf s) (allocator s)
    (mkMemory (mem_brk m) (mem_zones m)
              (alter (fun e => mkJsonElement p (element_value e)) tail
                     (mem_elements m))
              (mem_pairs m)).

(** Modelled from the spec: the linking of array cells in the missing
    [json_parse].  Appends a cell for [v] to the list with the given head
    and tail, in constant time through the tail pointer; gives the new
    head and tail. *)
Definition append_element (hd tl : Z) (v : JsonValue) (s : State)
  : Outcome (Z * Z) :=
  do p, s1 <- new_element v s;
  if tl =? nullptr then Done (p, p) s1
  else Done (hd, p) (link_element tl p s1).

(** A new object cell holding [key] and [v], not yet linked. *)
Definition new_pair (key : Z) (v : JsonValue) (s : State) : Outcome Z :=
  match allocate JSON_ZONE_SIZE (allocator s) (memory s)
                 sizeof_JsonPair 8 with
  | Some (p, a, m) =>
      Done p (mkState (buf s) a
                (mkMemory (mem_brk m) (mem_zones m) (mem_elements m)
                          (<[p := mkJsonPair nullptr key v]> (mem_pairs m))))
  | None => Aborted
  end.

(** [tail->next = p] *)
Definition link_pair (tail p : Z) (s : State) : State :=
  let m := memory s in
  mkState (buf s) (allocator s)
    (mkMemory (mem_brk m) (mem_zones m) (mem_elements m)
              (alter (fun e => mkJsonPair p (pair_key e) (pair_value e)) tail
                     (mem_pairs m))).

(** Modelled from the spec: the linking of object cells in the missing
    [json_parse], as for arrays. *)
Definition append_pair (hd tl key : Z) (v : JsonValue) (s : State)
  : Outcome (Z * Z) :=
  do p, s1 <- new_pair key v s;
  if tl =? nullptr then Done (p, p) s1
  else Done (hd, p) (link_pair tl p s1).

(** The error for a token that cannot stand where it was found: the end
    of the text is a missing bracket, anything else an unexpected
    character. *)
Definition unexpected {A : Type} (t : nat * Token) (s : State) : Outcome A :=
  match snd t with
  | TokEnd => Failed JSON_PARSE_MISMATCH_BRACKET (fst t) s
  | _ => Failed JSON_PARSE_UNEXPECTED_CHARACTER (fst t) s
  end.

(** Modelled from the spec: the recursive descent of the missing
    [json_parse].  [parse_value] parses the value that starts with the
    token [t], which has been read already; [parse_elements] the elements
    of an array up to its closing bracket, [parse_members] the members of
    an object up to its closing brace, each starting with the token [t].
    A key has to be a string.  [fuel] bounds the depth of the recursion. *)
Fixpoint parse_value (fuel : nat) (t : nat * Token) (s : State)
  : Outcome JsonValue :=
  match fuel with
  | O => OutOfFuel
  | S fuel' =>
      match snd t with
      | TokValue v => Done v s
      | TokLBracket =>
          do t1, s1 <- lex s;
          match snd t1 with
          | TokRBracket => tagged JSON_TAG_ARRAY nullptr s1
          | _ => parse_elements fuel' t1 nullptr nullptr s1
          end
      | TokLBrace =>
          do t1, s1 <- lex s;
          match snd t1 with
          | TokRBrace => tagged JSON_TAG_OBJECT nullptr s1
          | _ => parse_members fuel' t1 nullptr nullptr s1
          end
      | _ => unexpected t s
      end
  end
with parse_elements (fuel : nat) (t : nat * Token) (hd tl : Z) (s : State)
  : Outcome JsonValue :=
  match fuel with
  | O => OutOfFuel
  | S fuel' =>
      do v, s1 <- parse_value fuel' t s;
      do ht, s2 <- append_element hd tl v s1;
      do t1, s3 <- lex s2;
      match snd t1 with
      | TokComma =>
          do t2, s4 <- lex s3;
          parse_elements fuel' t2 (fst ht) (snd ht) s4
      | TokRBracket => tagged JSON_TAG_ARRAY (fst ht) s3
      | TokRBrace | TokEnd => Failed JSON_PARSE_MISMATCH_BRACKET (fst t1) s3
      | _ => Failed JSON_PARSE_UNEXPECTED_CHARACTER (fst t1) s3
      end
  end
with parse_members (fuel : nat) (t : nat * Token) (hd tl : Z) (s : State)
  : Outcome JsonValue :=
  match fuel with
  | O => OutOfFuel
  | S fuel' =>
      match snd t with
      | TokValue k =>
          if getTag k =? JSON_TAG_STRING then
            match toString k with
            | None => Aborted
            | Some key =>
                do t1, s1 <- lex s;
                match snd t1 with
                | TokColon =>
                    do t2, s2 <- lex s1;
                    do v, s3 <- parse_value fuel' t2 s2;
                    do ht, s4 <- append_pair hd tl key v s3;
                    do t3, s5 <- lex s4;
                    match snd t3 with
                    | TokComma =>
                        do t4, s6 <- lex s5;
                        parse_members fuel' t4 (fst ht) (snd ht) s6
                    | TokRBrace => tagged JSON_TAG_OBJECT (fst ht) s5
                    | TokRBracket | TokEnd =>
                        Failed JSON_PARSE_MISMATCH_BRACKET (fst t3) s5
                    | _ => Failed JSON_PARSE_UNEXPECTED_CHARACTER (fst t3) s5
                    end
                | _ => unexpected t1 s1
                end
            end
          else Failed JSON_PARSE_UNEXPECTED_CHARACTER (fst t) s
      | _ => unexpected t s
      end
  end.

(** Modelled from the spec: [json_parse], which gason.h declares (line
    142) and whose body is not among the sources; [text] is the buffer
    at the address [str].  The state machine of section 4.3: the first
    token is read and dispatched on, the value is built, and the top
    level is checked to end there: anything after the value is a bracket
    mismatch.  The recursion budget never runs out (see
    [json_parse_fuel]). *)
Definition json_parse (text : list ascii) (a : JsonAllocator) (m : Memory)
  : Outcome JsonValue :=
  do t, s1 <- lex (mkState (mkBuffer [] text) a m);
  match snd t with
  | TokEnd => Failed JSON_PARSE_UNEXPECTED_CHARACTER (fst t) s1
  | _ =>
      do v, s2 <- parse_value (2 * length text + 2) t s1;
      do t2, s3 <- lex s2;
      match snd t2 with
      | TokEnd => Done v s3
      | _ => Failed JSON_PARSE_MISMATCH_BRACKET (fst t2) s3
      end
  end.

(** The status and the end position that [json_parse] hands back. *)
Definition parse_status {A : Type} (o : Outcome A) : option JsonParseStatus :=
  match o with
  | Done _ _ => Some JSON_PARSE_OK
  | Failed st _ _ => Some st
  | Aborted | OutOfFuel => None
  end.

Definition parse_endptr {A : Type} (o : Outcome A) : option Z :=
  match o with
  | Done _ s => Some (str + Z.of_nat (offset (buf s)))
  | Failed _ pos _ => Some (str + Z.of_nat pos)
  | Aborted | OutOfFuel => None
  end.

End Parser.

(** ** Iterating over the result *)

(** The values of the cells on the chain from [p], in link order: what
    iterating over an array visits.  [fuel] bounds the number of cells. *)
Fixpoint element_values (fuel : nat) (m : Memory) (p : Z) : list JsonValue :=
  match fuel with
  | O => []
  | S fuel' =>
      if p =? nullptr then []
      else match mem_elements m !! p with
           | Some e => element_value e :: element_values fuel' m (element_next e)
           | None => []
           end
  end.

(** The keys and values of the cells on the chain from [p], in link
    order: what iterating over an object visits. *)
Fixpoint pair_entries (fuel : nat) (m : Memory) (p : Z)
  : list (Z * JsonValue) :=
  match fuel with
  | O => []
  | S fuel' =>
      if p =? nullptr then []
      else match mem_pairs m !! p with
           | Some e =>
               (pair_key e, pair_value e) :: pair_entries fuel' m (pair_next e)
           | None => []
           end
  end.

(** The bytes from the start of the list up to the first NUL. *)
Fixpoint until_nul (l : list ascii) : list ascii :=
  match l with
  | [] => []
  | ch :: l' => if code ch =? 0 then [] else ch :: until_nul l'
  end.

(** The C string at the address [p] of a buffer that starts at [str]. *)
Definition string_at (str : Z) (b : Buffer) (p : Z) : string :=
  string_of_list_ascii
    (until_nul (drop (Z.to_nat (p - str)) (consumed b ++ unread b))).

(** * Part II: the notions the properties are stated with *)

(** ** The statuses *)

(** The enumerators in the order of their declaration. *)
Definition JsonParseStatus_all : list JsonParseStatus :=
  [JSON_PARSE_OK; JSON_PARSE_BAD_NUMBER; JSON_PARSE_BAD_STRING;
   JSON_PARSE_UNKNOWN_IDENTIFIER; JSON_PARSE_OVERFLOW;
   JSON_PARSE_UNDERFLOW; JSON_PARSE_MISMATCH_BRACKET;
   JSON_PARSE_UNEXPECTED_CHARACTER].

Definition JsonParseStatus_eqb (a b : JsonParseStatus) : bool :=
  JsonParseStatus_value a =? JsonParseStatus_value b.

Definition is_error (s : JsonParseStatus) : bool :=
  negb (JsonParseStatus_eqb s JSON_PARSE_OK).

(** The error kinds: every status but the success kind. *)
Definition error_kinds : list JsonParseStatus :=
  List.filter is_error JsonParseStatus_all.

(** ** The encoding and the arena *)

(** The word the tagged constructor stores, as the sum of its three
    disjoint fields: the quiet-NaN prefix, the tag and the payload. *)
Definition boxed (tag x : Z) : Z := (0xFFF0 + tag) * 2 ^ 47 + x.

(** The address below which everything has been handed out: the end of
    the current zone, or the host's mark when there is no zone. *)
Definition arena_top (a : JsonAllocator) (m : Memory) : Z :=
  if head a =? nullptr then mem_brk m
  else match mem_zones m !! head a with
       | Some z => zone_end z
       | None => mem_brk m
       end.

(** The arena is well formed when its current zone, if any, lies with its
    whole default capacity inside the memory the host has handed out, and
    ends above its own header. *)
Definition arena_wf (JSON_ZONE_SIZE : Z) (a : JsonAllocator) (m : Memory)
  : Prop :=
  0 < mem_brk m <= 2 ^ 64
  /\ (head a = nullptr
      \/ 0 < head a
         /\ exists z, mem_zones m !! head a = Some z
                      /\ head a < zone_end z <= mem_brk m
                      /\ head a + JSON_ZONE_SIZE <= mem_brk m).

Definition state_wf (JSON_ZONE_SIZE : Z) (s : State) : Prop :=
  arena_wf JSON_ZONE_SIZE (allocator s) (memory s).

Definition state_top (s : State) : Z := arena_top (allocator s) (memory s).

(** ** The cursor *)

(** From [b] to [b'] the cursor has not moved back and no byte has been
    added or dropped. *)
Definition advances (b b' : Buffer) : Prop :=
  (offset b <= offset b')%nat
  /\ (offset b' + length (unread b') = offset b + length (unread b))%nat.

(** ** The tree held by the memory *)

#[local] Set Warnings "-register-all".

(** The shape of a JSON document.  A scalar (number, string, boolean or
    null) is the 64-bit value itself; the elements of an array and the
    members of an object, each with the address of its key, come in their
    order. *)
Inductive Tree : Type :=
| Scalar (v : JsonValue)
| Array (items : list Tree)
| Object (members : list (Z * Tree)).

(** [Repr m A B v t]: in the memory [m], the value [v] is the root of
    the tree [t], all of whose cells lie at addresses from [A] up to, but
    not including, [B].
    [ElementList m A B prev p ts last]: following the [next] links from
    the cell at [p] visits, in this order, cells that hold the trees
    [ts], up to the null link; the cells lie in the same range at
    increasing addresses above [prev], each above the cells of the value
    it holds, and [last] is the address of the final one ([prev] when
    there is none).  [PairList] is the same for the cells of an object. *)
Inductive Repr (m : Memory) : Z -> Z -> JsonValue -> Tree -> Prop :=
| Repr_scalar (A B : Z) (v : JsonValue) : Repr m A B v (Scalar v)
| Repr_array (A B : Z) (v : JsonValue) (p : Z) (items : list Tree)
    (last : Z) :
    toElement v = Some p ->
    ElementList m A B nullptr p items last ->
    Repr m A B v (Array items)
| Repr_object (A B : Z) (v : JsonValue) (p : Z)
    (members : list (Z * Tree)) (last : Z) :
    toPair v = Some p ->
    PairList m A B nullptr p members last ->
    Repr m A B v (Object members)
with ElementList (m : Memory) : Z -> Z -> Z -> Z -> list Tree -> Z -> Prop :=
| ElementList_nil (A B prev : Z) : ElementList m A B prev nullptr [] prev
| ElementList_cons (A B prev p : Z) (e : JsonElement) (t : Tree)
    (ts : list Tree) (last : Z) :
    prev < p -> 0 < p -> A <= p < B ->
    mem_elements m !! p = Some e ->
    Repr m A p (element_value e) t ->
    ElementList m A B p (element_next e) ts last ->
    ElementList m A B prev p (t :: ts) last
with PairList (m : Memory)
  : Z -> Z -> Z -> Z -> list (Z * Tree) -> Z -> Prop :=
| PairList_nil (A B prev : Z) : PairList m A B prev nullptr [] prev
| PairList_cons (A B prev p : Z) (e : JsonPair) (t : Tree)
    (ts : list (Z * Tree)) (last : Z) :
    prev < p -> 0 < p -> A <= p < B ->
    mem_pairs m !! p = Some e ->
    Repr m A p (pair_value e) t ->
    PairList m A B p (pair_next e) ts last ->
    PairList m A B prev p ((pair_key e, t) :: ts) last.

Scheme Repr_min := Minimality for Repr Sort Prop
  with ElementList_min := Minimality for ElementList Sort Prop
  with PairList_min := Minimality for PairList Sort Prop.

Combined Scheme Repr_mutual from Repr_min, ElementList_min, PairList_min.

(** Two memories hold the same cells at the addresses from [A] up to
    [B]. *)
Definition agree_between (A B : Z) (m m' : Memory) : Prop :=
  forall a, A <= a < B ->
    mem_elements m' !! a = mem_elements m !! a
    /\ mem_pairs m' !! a = mem_pairs m !! a.

(** Two memories hold the same cells below [B]. *)
Definition agree_below (B : Z) (m m' : Memory) : Prop :=
  forall a, a < B ->
    mem_elements m' !! a = mem_elements m !! a
    /\ mem_pairs m' !! a = mem_pairs m !! a.

(** ** The tokens of a text and the documents they spell *)

(** [derives l t]: the tokens [l], read from left to right, spell the
    document [t].  [derives_elements l ts]: they spell the elements [ts]
    of an array, separated by commas, and its closing bracket.
    [derives_members l ms]: they spell the members [ms] of an object,
    each a string key, a colon and a value, and its closing brace. *)
Inductive derives : list Token -> Tree -> Prop :=
| derives_scalar (v : JsonValue) : derives [TokValue v] (Scalar v)
| derives_empty_array : derives [TokLBracket; TokRBracket] (Array [])
| derives_array (l : list Token) (ts : list Tree) :
    derives_elements l ts -> derives (TokLBracket :: l) (Array ts)
| derives_empty_object : derives [TokLBrace; TokRBrace] (Object [])
| derives_object (l : list Token) (ms : list (Z * Tree)) :
    derives_members l ms -> derives (TokLBrace :: l) (Object ms)
with derives_elements : list Token -> list Tree -> Prop :=
| derives_last_element (l : list Token) (t : Tree) :
    derives l t -> derives_elements (l ++ [TokRBracket]) [t]
| derives_more_elements (l l' : list Token) (t : Tree) (ts : list Tree) :
    derives l t -> derives_elements l' ts ->
    derives_elements (l ++ TokComma :: l') (t :: ts)
with derives_members : list Token -> list (Z * Tree) -> Prop :=
| derives_last_member (k : JsonValue) (key : Z) (l : list Token) (t : Tree) :
    toString k = Some key -> derives l t ->
    derives_members (TokValue k :: TokColon :: l ++ [TokRBrace]) [(key, t)]
| derives_more_members (k : JsonValue) (key : Z) (l l' : list Token)
    (t : Tree) (ms : list (Z * Tree)) :
    toString k = Some key -> derives l t -> derives_members l' ms ->
    derives_members (TokValue k :: TokColon :: l ++ TokComma :: l')
                    ((key, t) :: ms).

Scheme derives_min := Minimality for derives Sort Prop
  with derives_elements_min := Minimality for derives_elements Sort Prop
  with derives_members_min := Minimality for derives_members Sort Prop.

Combined Scheme derives_mutual
  from derives_min, derives_elements_min, derives_members_min.

(** [lex_run str b l b']: reading token after token from the buffer [b],
    which lies at the address [str], gives the tokens [l], each with the
    offset of its first byte, and leaves the buffer [b']. *)
Inductive lex_run (str : Z)
  : Buffer -> list (nat * Token) -> Buffer -> Prop :=
| lex_run_nil (b : Buffer) : lex_run str b [] b
| lex_run_cons (b b1 b2 : Buffer) (t : nat * Token) (l : list (nat * Token)) :
    next_token str b = ScanOk t b1 -> lex_run str b1 l b2 ->
    lex_run str b (t :: l) b2.

(** ** What the parsers have done when they succeed *)

(** What a successful [parse_value] has done: it read the tokens [l]
    after its first token [t]; together they spell a document, which the
    memory now holds under the value returned, in cells taken from the
    arena during the call; nothing handed out before was touched. *)
Definition value_post (JSON_ZONE_SIZE str : Z) (s : State) (t : nat * Token) (v : JsonValue)
    (s' : State) : Prop :=
  exists l tree,
    lex_run str (buf s) l (buf s')
    /\ derives (snd t :: map snd l) tree
    /\ Repr (memory s') (state_top s) (state_top s') v tree
    /\ state_wf JSON_ZONE_SIZE s' /\ state_top s <= state_top s'
    /\ agree_below (state_top s) (memory s) (memory s').

(** The same for the rest of an array, whose first elements [ts0] are
    linked already in cells from [A] on. *)
Definition elements_post (JSON_ZONE_SIZE str : Z) (s : State) (t : nat * Token) (A : Z)
    (ts0 : list Tree) (v : JsonValue) (s' : State) : Prop :=
  exists l items,
    lex_run str (buf s) l (buf s')
    /\ derives_elements (snd t :: map snd l) items
    /\ Repr (memory s') A (state_top s') v (Array (ts0 ++ items))
    /\ state_wf JSON_ZONE_SIZE s' /\ state_top s <= state_top s'
    /\ agree_below A (memory s) (memory s').

Definition members_post (JSON_ZONE_SIZE str : Z) (s : State) (t : nat * Token) (A : Z)
    (ms0 : list (Z * Tree)) (v : JsonValue) (s' : State) : Prop :=
  exists l members,
    lex_run str (buf s) l (buf s')
    /\ derives_members (snd t :: map snd l) members
    /\ Repr (memory s') A (state_top s') v (Object (ms0 ++ members))
    /\ state_wf JSON_ZONE_SIZE s' /\ state_top s <= state_top s'
    /\ agree_below A (memory s) (memory s').

(** ** The recursion budget *)

Definition unread_length (s : State) : nat := length (unread (buf s)).

(** The budget that suffices for a value that starts with the token [t]
    when [u] bytes are unread; a list needs one more. *)
Definition budget (t : nat * Token) (u : nat) : nat :=
  match snd t with
  | TokEnd => 1
  | _ => 2 * u + 3
  end.

(** ** Which typed accessors return *)

(** Whether a call returned, that is, no assertion tripped. *)
Definition returned {A : Type} (r : option A) : bool :=
  match r with Some _ => true | None => false end.

(** The five typed accessors of [JsonValue], each under the tag its
    assertion names. *)
Definition typed_accessors : list (JsonTag * (JsonValue -> bool)) :=
  [ (JSON_TAG_NUMBER, fun v => returned (toNumber v));
    (JSON_TAG_BOOL, fun v => returned (toBool v));
    (JSON_TAG_STRING, fun v => returned (toString v));
    (JSON_TAG_ARRAY, fun v => returned (toElement v));
    (JSON_TAG_OBJECT, fun v => returned (toPair v)) ].

(** The tags of the accessors that return on [v]. *)
Definition returning (v : JsonValue) : list JsonTag :=
  map fst (List.filter (fun a => snd a v) typed_accessors).

(** ** Sample runs *)

Module Examples.

(** A text, written with ['] where JSON has its double quote. *)
Definition json_text (s : string) : list ascii :=
  map (fun ch => if (ch =? "'")%char then quote else ch)
      (list_ascii_of_string s).

(** A buffer at address [0x10000], zones of 4096 bytes, a new allocator
    and a host whose first block will lie at [0x20000]. *)
Definition parse (s : string) : Outcome JsonValue :=
  json_parse 4096 0x10000 (json_text s)
             (fst (JsonAllocator_new (mkMemory 0x20000 ∅ ∅ ∅)))
             (snd (JsonAllocator_new (mkMemory 0x20000 ∅ ∅ ∅))).

Definition status_and_offset (s : string)
  : option JsonParseStatus * option Z :=
  (parse_status (parse s), parse_endptr 0 (parse s)).

(** The numbers of an array, in iteration order. *)
Definition array_numbers (o : Outcome JsonValue) : option (list double) :=
  match o with
  | Done v s =>
      p ← toElement v;
      mapM toNumber (element_values (size (mem_elements (memory s)))
                                    (memory s) p)
  | _ => None
  end.

(** The keys and the numbers of an object, in iteration order. *)
Definition object_numbers (o : Outcome JsonValue)
  : option (list (string * double)) :=
  match o with
  | Done v s =>
      p ← toPair v;
      mapM (fun kv => x ← toNumber (snd kv);
                      Some (string_at 0x10000 (buf s) (fst kv), x))
           (pair_entries (size (mem_pairs (memory s))) (memory s) p)
  | _ => None
  end.

Definition double_1 : double := 0x3FF0000000000000.
Definition double_2 : double := 0x4000000000000000.
Definition double_3 : double := 0x4008000000000000.

End Examples.

(** * Part III: the proofs *)

(** ** Bit-level facts about the encoding *)

Section Encoding.

Lemma assert_some (c : bool) : assert c = Some tt <-> c = true.
Proof. destruct c; cbn; split; congruence. Qed.

Lemma assert_bind {A : Type} (c : bool) (k : option A) (r : A) :
  (assert c;; k) = Some r <-> c = true /\ k = Some r.
Proof. destruct c; cbn; split; intros; intuition congruence. Qed.

Lemma assert_bind_none {A : Type} (c : bool) (k : option A) :
  c = false -> (assert c;; k) = None.
Proof. intros ->. reflexivity. Qed.

Lemma land_high_low (k p n : Z) :
  0 <= n -> 0 <= p < 2 ^ n -> Z.land (k * 2 ^ n) p = 0.
Proof.
  intros Hn Hp. apply Z.bits_inj'. intros i Hi.
  rewrite Z.land_spec, Z.bits_0.
  destruct (Z.lt_ge_cases i n) as [Hlt | Hge].
  - rewrite Z.mul_pow2_bits_low by assumption. reflexivity.
  - replace p with (p mod 2 ^ n) by (apply Z.mod_small; assumption).
    rewrite Z.mod_pow2_bits_high by lia. apply andb_false_r.
Qed.

Lemma lor_high_low (k p n : Z) :
  0 <= n -> 0 <= p < 2 ^ n -> Z.lor (k * 2 ^ n) p = k * 2 ^ n + p.
Proof.
  intros Hn Hp. symmetry. apply Z.add_nocarry_lor.
  apply land_high_low; assumption.
Qed.

Lemma boxed_word (tag x : Z) :
  JsonTag_wf tag -> 0 <= x <= JSON_VALUE_PAYLOAD_MASK ->
  Z.lor (Z.lor JSON_VALUE_NAN_MASK (shl64 (u64 tag) JSON_VALUE_TAG_SHIFT)) x
  = boxed tag x.
Proof.
  unfold JsonTag_wf, JSON_VALUE_PAYLOAD_MASK. intros Ht Hx.
  unfold shl64, u64, JSON_VALUE_TAG_SHIFT, JSON_VALUE_NAN_MASK, boxed.
  rewrite (Z.mod_small tag) by lia.
  rewrite Z.shiftl_mul_pow2 by lia.
  rewrite (Z.mod_small (tag * 2 ^ 47)) by lia.
  assert (Hl : Z.lor 0x7FF8000000000000 (tag * 2 ^ 47)
               = (0xFFF0 + tag) * 2 ^ 47).
  { change 0x7FF8000000000000 with (0xFFF * 2 ^ 51).
    rewrite lor_high_low by lia. lia. }
  rewrite Hl. apply lor_high_low; lia.
Qed.

Lemma s32_small (z : Z) : 0 <= z < 2 ^ 31 -> s32 z = z.
Proof.
  intros Hz. unfold s32. rewrite Z.mod_small by lia.
  destruct (Z.ltb_spec z (2 ^ 31)); lia.
Qed.

Lemma s64_small (z : Z) : 0 <= z < 2 ^ 63 -> s64 z = z.
Proof.
  intros Hz. unfold s64. rewrite Z.mod_small by lia.
  destruct (Z.ltb_spec z (2 ^ 63)); lia.
Qed.

Lemma s64_large (z : Z) : 2 ^ 63 <= z < 2 ^ 64 -> s64 z = z - 2 ^ 64.
Proof.
  intros Hz. unfold s64. rewrite Z.mod_small by lia.
  destruct (Z.ltb_spec z (2 ^ 63)); lia.
Qed.

Lemma u64_range (z : Z) : 0 <= u64 z < 2 ^ 64.
Proof. unfold u64. apply Z.mod_pos_bound. lia. Qed.

(** What a successful tagged construction stored. *)
Lemma JsonValue_tagged_inv (tag p : Z) (v : JsonValue) :
  JsonTag_wf tag -> JsonValue_tagged tag p = Some v ->
  0 <= u64 p <= JSON_VALUE_PAYLOAD_MASK /\ data_i v = boxed tag (u64 p).
Proof.
  intros Ht. unfold JsonValue_tagged. cbv zeta.
  rewrite assert_bind. intros [_ H]. apply assert_bind in H.
  destruct H as [Hp H]. apply Z.leb_le in Hp.
  pose proof (u64_range p) as Hr.
  injection H as <-. cbn [data_i]. split; [lia | ].
  apply boxed_word; [assumption | lia].
Qed.

Lemma JsonValue_tagged_some (tag p : Z) :
  JsonTag_wf tag -> 0 <= p <= JSON_VALUE_PAYLOAD_MASK ->
  JsonValue_tagged tag p = Some (mkJsonValue (boxed tag p)).
Proof.
  intros Ht Hp. unfold JsonValue_tagged. cbv zeta.
  assert (Hu : u64 p = p).
  { unfold u64. apply Z.mod_small.
    unfold JSON_VALUE_PAYLOAD_MASK in Hp. lia. }
  rewrite Hu, boxed_word by assumption.
  unfold JsonTag_wf in Ht. rewrite s32_small by lia.
  replace (tag <=? JSON_VALUE_TAG_MASK) with true
    by (symmetry; apply Z.leb_le; unfold JSON_VALUE_TAG_MASK; lia).
  replace (p <=? JSON_VALUE_PAYLOAD_MASK) with true
    by (symmetry; apply Z.leb_le; lia).
  reflexivity.
Qed.

(** The three fields of a boxed word can be read back. *)
Lemma boxed_range (tag x : Z) :
  JsonTag_wf tag -> 0 <= x <= JSON_VALUE_PAYLOAD_MASK ->
  JSON_VALUE_NAN_MASK <= boxed tag x < 2 ^ 63.
Proof.
  unfold JsonTag_wf, JSON_VALUE_PAYLOAD_MASK, JSON_VALUE_NAN_MASK, boxed.
  lia.
Qed.

Lemma boxed_tag_field (tag x : Z) :
  JsonTag_wf tag -> 0 <= x <= JSON_VALUE_PAYLOAD_MASK ->
  Z.land (Z.shiftr (boxed tag x) JSON_VALUE_TAG_SHIFT) JSON_VALUE_TAG_MASK
  = tag.
Proof.
  unfold JsonTag_wf, JSON_VALUE_PAYLOAD_MASK. intros Ht Hx.
  unfold JSON_VALUE_TAG_SHIFT, JSON_VALUE_TAG_MASK, boxed.
  rewrite Z.shiftr_div_pow2 by lia.
  rewrite Z.div_add_l by lia.
  rewrite (Z.div_small x) by lia.
  change 0xF with (Z.ones 4). rewrite Z.land_ones by lia.
  rewrite Z.add_0_r.
  replace (0xFFF0 + tag) with (tag + 0xFFF * 2 ^ 4) by lia.
  rewrite Z.mod_add by lia. apply Z.mod_small. lia.
Qed.

Lemma boxed_payload_field (tag x : Z) :
  0 <= x <= JSON_VALUE_PAYLOAD_MASK ->
  Z.land (boxed tag x) JSON_VALUE_PAYLOAD_MASK = x.
Proof.
  unfold JSON_VALUE_PAYLOAD_MASK. intros Hx. unfold boxed.
  change 0x00007FFFFFFFFFFF with (Z.ones 47).
  rewrite Z.land_ones by lia.
  rewrite Z.add_comm, Z.mod_add by lia. apply Z.mod_small. lia.
Qed.

Lemma s64_nan_mask : s64 JSON_VALUE_NAN_MASK = JSON_VALUE_NAN_MASK.
Proof. reflexivity. Qed.

Lemma isDouble_boxed (tag x : Z) :
  JsonTag_wf tag -> 0 <= x <= JSON_VALUE_PAYLOAD_MASK ->
  isDouble (mkJsonValue (boxed tag x)) = true <-> tag = 0 /\ x = 0.
Proof.
  intros Ht Hx. unfold isDouble. cbn [data_i].
  pose proof (boxed_range tag x Ht Hx) as Hr.
  rewrite s64_small, s64_nan_mask, Z.leb_le
    by (unfold JSON_VALUE_NAN_MASK in Hr; lia).
  unfold JsonTag_wf, JSON_VALUE_PAYLOAD_MASK, JSON_VALUE_NAN_MASK, boxed in *.
  lia.
Qed.

Lemma getTag_boxed (tag x : Z) :
  JsonTag_wf tag -> 0 <= x <= JSON_VALUE_PAYLOAD_MASK ->
  getTag (mkJsonValue (boxed tag x)) = tag.
Proof.
  intros Ht Hx. unfold getTag.
  destruct (isDouble (mkJsonValue (boxed tag x))) eqn:Hd.
  - apply isDouble_boxed in Hd; [ | assumption ..].
    destruct Hd as [-> _]. reflexivity.
  - cbn [data_i]. apply boxed_tag_field; assumption.
Qed.

End Encoding.

(** ** The value encoding *)

Section ValueEncoding.

Lemma not_nan_isDouble (x : double) :
  is_u64 x -> double_is_nan x = false ->
  isDouble (JsonValue_double x) = true.
Proof.
  unfold is_u64. intros Hx Hnan.
  unfold isDouble, JsonValue_double. cbn [data_i].
  rewrite s64_nan_mask. apply Z.leb_le.
  destruct (Z.lt_ge_cases x (2 ^ 63)) as [Hlo | Hhi].
  - rewrite s64_small by lia.
    unfold double_is_nan, double_exponent, double_fraction in Hnan.
    rewrite Z.shiftr_div_pow2 in Hnan by lia.
    change 0x7FF with (Z.ones 11) in Hnan at 1.
    change 0xFFFFFFFFFFFFF with (Z.ones 52) in Hnan.
    rewrite !Z.land_ones in Hnan by lia.
    pose proof (Z.div_mod x (2 ^ 52) ltac:(lia)) as Hdm.
    pose proof (Z.mod_pos_bound x (2 ^ 52) ltac:(lia)) as Hm.
    assert (Hq : 0 <= x / 2 ^ 52 < 2 ^ 11).
    { split; [apply Z.div_pos; lia | apply Z.div_lt_upper_bound; lia]. }
    rewrite (Z.mod_small (x / 2 ^ 52)) in Hnan by lia.
    unfold JSON_VALUE_NAN_MASK.
    apply andb_false_iff in Hnan. destruct Hnan as [He | Hf].
    + apply Z.eqb_neq in He. lia.
    + apply negb_false_iff, Z.eqb_eq in Hf. lia.
  - rewrite s64_large by lia. unfold JSON_VALUE_NAN_MASK. lia.
Qed.

(** C1.  Number detection follows the NaN-boxing rule: a double that is
    not a NaN, stored with [JsonValue(double)], has tag
    [JSON_TAG_NUMBER] and [toNumber] gives back exactly its bits; and a
    word built by the tagged constructor with a tag other than
    [JSON_TAG_NUMBER] never has tag [JSON_TAG_NUMBER]. *)
Theorem number_detection_nan_boxing
    (x : double) (tag : JsonTag) (p : Z) (v : JsonValue) :
  is_u64 x -> double_is_nan x = false ->
  JsonTag_wf tag -> tag <> JSON_TAG_NUMBER ->
  JsonValue_tagged tag p = Some v ->
  getTag (JsonValue_double x) = JSON_TAG_NUMBER
  /\ toNumber (JsonValue_double x) = Some x
  /\ getTag v <> JSON_TAG_NUMBER.
Proof.
  intros Hx Hnan Ht Hne Hv.
  pose proof (not_nan_isDouble x Hx Hnan) as Hd.
  assert (Hg : getTag (JsonValue_double x) = JSON_TAG_NUMBER)
    by (unfold getTag; rewrite Hd; reflexivity).
  repeat split.
  - exact Hg.
  - unfold toNumber. rewrite Hg. reflexivity.
  - destruct (JsonValue_tagged_inv tag p v Ht Hv) as [Hp Hw].
    destruct v as [w]. cbn [data_i] in Hw. subst w.
    rewrite getTag_boxed by assumption. exact Hne.
Qed.

Lemma number_detection_nan_boxing_witness :
  getTag (JsonValue_double 0x4008000000000000) = JSON_TAG_NUMBER
  /\ toNumber (JsonValue_double 0x4008000000000000)
     = Some 0x4008000000000000
  /\ getTag (mkJsonValue 0x7FF9000000001000) <> JSON_TAG_NUMBER.
Proof.
  apply (number_detection_nan_boxing
           0x4008000000000000 JSON_TAG_BOOL 0x1000
           (mkJsonValue 0x7FF9000000001000)).
  - unfold is_u64. lia.
  - reflexivity.
  - unfold JsonTag_wf, JSON_TAG_BOOL. lia.
  - discriminate.
  - reflexivity.
Defined.

(** C2.  The tagged encoding round-trips: for each of the five tags
    other than [JSON_TAG_NUMBER] and each pointer whose 64-bit value
    fits the 47-bit payload, the constructor succeeds and [getTag] and
    [getPayload] read back the tag and the pointer. *)
Theorem tagged_encoding_roundtrip (tag : JsonTag) (p : Z) :
  In tag [JSON_TAG_STRING; JSON_TAG_BOOL; JSON_TAG_ARRAY;
          JSON_TAG_OBJECT; JSON_TAG_NULL] ->
  u64 p <= JSON_VALUE_PAYLOAD_MASK ->
  exists v, JsonValue_tagged tag p = Some v
            /\ getTag v = tag
            /\ getPayload v = Some (u64 p).
Proof.
  intros Hin Hp.
  assert (Ht : JsonTag_wf tag /\ tag <> 0).
  { unfold JsonTag_wf. cbn in Hin.
    unfold JSON_TAG_STRING, JSON_TAG_BOOL, JSON_TAG_ARRAY,
      JSON_TAG_OBJECT, JSON_TAG_NULL in Hin. lia. }
  destruct Ht as [Ht Hnz].
  pose proof (u64_range p) as Hr.
  assert (Hx : 0 <= u64 p <= JSON_VALUE_PAYLOAD_MASK) by lia.
  exists (mkJsonValue (boxed tag (u64 p))). split; [ | split].
  - pose proof (JsonValue_tagged_some tag (u64 p) Ht Hx) as Hs.
    unfold JsonValue_tagged in *. cbv zeta in *.
    replace (u64 (u64 p)) with (u64 p) in Hs; [exact Hs | ].
    unfold u64. rewrite Z.mod_mod by lia. reflexivity.
  - apply getTag_boxed; assumption.
  - unfold getPayload.
    destruct (isDouble (mkJsonValue (boxed tag (u64 p)))) eqn:Hd.
    + apply isDouble_boxed in Hd; [ | assumption ..]. lia.
    + cbn [negb assert mbind option_bind]. cbn.
      f_equal. apply boxed_payload_field. assumption.
Qed.

Lemma tagged_encoding_roundtrip_witness :
  exists v, JsonValue_tagged JSON_TAG_ARRAY 0x7F0012345678 = Some v
            /\ getTag v = JSON_TAG_ARRAY
            /\ getPayload v = Some (u64 0x7F0012345678).
Proof.
  apply (tagged_encoding_roundtrip JSON_TAG_ARRAY 0x7F0012345678).
  - cbn. tauto.
  - vm_compute. discriminate.
Defined.

End ValueEncoding.

(** ** The tagged constructor and the null value *)

Section Constructors.

Lemma boxed_nan_prefix (tag x : Z) :
  JsonTag_wf tag -> 0 <= x <= JSON_VALUE_PAYLOAD_MASK ->
  Z.shiftr (boxed tag x) 51 = 0xFFF.
Proof.
  unfold JsonTag_wf, JSON_VALUE_PAYLOAD_MASK, boxed. intros Ht Hx.
  rewrite Z.shiftr_div_pow2 by lia.
  replace ((0xFFF0 + tag) * 2 ^ 47 + x)
    with (0xFFF * 2 ^ 51 + (tag * 2 ^ 47 + x)) by lia.
  rewrite Z.div_add_l by lia. rewrite Z.div_small by lia. lia.
Qed.

(** The shifted tag only has bits from 47 up, whatever the tag. *)
Lemma shl64_tag_shift (t : Z) :
  shl64 t JSON_VALUE_TAG_SHIFT = (t mod 2 ^ 17) * 2 ^ 47.
Proof.
  unfold shl64, u64, JSON_VALUE_TAG_SHIFT.
  rewrite Z.shiftl_mul_pow2 by lia.
  change (2 ^ 64) with (2 ^ 17 * 2 ^ 47).
  rewrite Z.mul_mod_distr_r by lia. reflexivity.
Qed.

(** So the low 47 bits of the stored word are the pointer. *)
Lemma tagged_word_payload (t x : Z) :
  0 <= x <= JSON_VALUE_PAYLOAD_MASK ->
  Z.land (Z.lor (Z.lor JSON_VALUE_NAN_MASK (shl64 t JSON_VALUE_TAG_SHIFT)) x)
         JSON_VALUE_PAYLOAD_MASK = x.
Proof.
  unfold JSON_VALUE_PAYLOAD_MASK. intros Hx.
  rewrite shl64_tag_shift. unfold JSON_VALUE_NAN_MASK.
  change 0x7FF8000000000000 with (0xFFF0 * 2 ^ 47).
  rewrite <- !Z.shiftl_mul_pow2 by lia.
  rewrite <- Z.shiftl_lor. rewrite Z.shiftl_mul_pow2 by lia.
  rewrite lor_high_low by lia.
  change 0x00007FFFFFFFFFFF with (Z.ones 47).
  rewrite Z.land_ones by lia.
  rewrite Z.add_comm, Z.mod_add by lia. apply Z.mod_small. lia.
Qed.

(** C5, as the code has it.  The tagged constructor enforces the
    payload-width limit: for every tag and every 64-bit pointer it
    returns exactly when [(int)tag <= 0xF] and the pointer is at most
    [0x00007FFFFFFFFFFF], and the word it stores then keeps every payload
    bit.  When the tag fits 4 bits and the pointer 47, both assertions
    pass and the word also keeps the tag and the quiet-NaN prefix. *)
Theorem tagged_constructor_payload_limit (tag : JsonTag) (p : Z) :
  is_u64 p ->
  (is_Some (JsonValue_tagged tag p)
     <-> s32 tag <= 0xF /\ p <= 0x00007FFFFFFFFFFF)
  /\ (forall v, JsonValue_tagged tag p = Some v ->
        Z.land (data_i v) JSON_VALUE_PAYLOAD_MASK = p)
  /\ (0 <= tag <= 0xF -> p <= 0x00007FFFFFFFFFFF ->
      exists v, JsonValue_tagged tag p = Some v
        /\ Z.land (data_i v) JSON_VALUE_PAYLOAD_MASK = p
        /\ Z.land (Z.shiftr (data_i v) JSON_VALUE_TAG_SHIFT)
                  JSON_VALUE_TAG_MASK = tag
        /\ Z.shiftr (data_i v) 51 = 0xFFF).
Proof.
  unfold is_u64. intros Hp.
  assert (Hu : u64 p = p) by (unfold u64; apply Z.mod_small; lia).
  assert (Hinv : forall v, JsonValue_tagged tag p = Some v ->
                   (s32 tag <= 0xF /\ p <= 0x00007FFFFFFFFFFF)
                   /\ Z.land (data_i v) JSON_VALUE_PAYLOAD_MASK = p).
  { intros v. unfold JsonValue_tagged. cbv zeta.
    rewrite assert_bind. intros [Ha H]. apply assert_bind in H.
    destruct H as [Hb H]. rewrite Hu in Hb, H.
    apply Z.leb_le in Ha, Hb. injection H as <-. cbn [data_i].
    split.
    - unfold JSON_VALUE_TAG_MASK in Ha.
      unfold JSON_VALUE_PAYLOAD_MASK in Hb. lia.
    - apply tagged_word_payload. lia. }
  split; [ | split].
  - split.
    + intros [v Hv]. exact (proj1 (Hinv v Hv)).
    + intros [Hta Hpa]. unfold JsonValue_tagged. cbv zeta. rewrite Hu.
      assert (Ha : (s32 tag <=? JSON_VALUE_TAG_MASK) = true)
        by (apply Z.leb_le; unfold JSON_VALUE_TAG_MASK; lia).
      assert (Hb : (p <=? JSON_VALUE_PAYLOAD_MASK) = true)
        by (apply Z.leb_le; unfold JSON_VALUE_PAYLOAD_MASK; lia).
      rewrite Ha, Hb. cbn [assert mbind option_bind]. eexists. reflexivity.
  - intros v Hv. exact (proj2 (Hinv v Hv)).
  - intros Hta Hpa.
    assert (Hwf : JsonTag_wf tag) by (unfold JsonTag_wf; lia).
    assert (Hx : 0 <= p <= JSON_VALUE_PAYLOAD_MASK)
      by (unfold JSON_VALUE_PAYLOAD_MASK; lia).
    exists (mkJsonValue (boxed tag p)).
    split; [apply JsonValue_tagged_some; assumption | ].
    cbn [data_i].
    rewrite boxed_payload_field, boxed_tag_field, boxed_nan_prefix
      by assumption.
    repeat split.
Qed.

Lemma tagged_constructor_payload_limit_witness :
  (is_Some (JsonValue_tagged JSON_TAG_OBJECT 0x7F0000001000)
     <-> s32 JSON_TAG_OBJECT <= 0xF /\ 0x7F0000001000 <= 0x00007FFFFFFFFFFF)
  /\ exists v, JsonValue_tagged JSON_TAG_OBJECT 0x7F0000001000 = Some v
        /\ Z.land (data_i v) JSON_VALUE_PAYLOAD_MASK = 0x7F0000001000
        /\ Z.land (Z.shiftr (data_i v) JSON_VALUE_TAG_SHIFT)
                  JSON_VALUE_TAG_MASK = JSON_TAG_OBJECT
        /\ Z.shiftr (data_i v) 51 = 0xFFF.
Proof.
  destruct (tagged_constructor_payload_limit JSON_TAG_OBJECT 0x7F0000001000)
    as (Hiff & _ & Hfit).
  - unfold is_u64. lia.
  - split; [exact Hiff | apply Hfit; unfold JSON_TAG_OBJECT; lia].
Defined.

(** C5 as stated fails: the assertion compares [(int)tag], not
    [(uint64_t)tag].  A tag whose [int] value is negative passes it
    although its unsigned value is far above [0xF]: with the tag [-1]
    the constructor stores [0xFFFF800000000000], and with the tag [2 ^ 31]
    it stores [0x7FF8000000000000]. *)
Lemma tagged_constructor_tag_check_signed :
  (JsonValue_tagged (-1) 0 = Some (mkJsonValue 0xFFFF800000000000)
   /\ ~ u64 (-1) <= 0xF)
  /\ (JsonValue_tagged (2 ^ 31) 0 = Some (mkJsonValue 0x7FF8000000000000)
      /\ ~ u64 (2 ^ 31) <= 0xF).
Proof.
  split; (split; [reflexivity | ]); unfold u64.
  - change ((-1) mod 2 ^ 64) with (2 ^ 64 - 1). lia.
  - rewrite Z.mod_small by lia. lia.
Qed.

(** C9.  A default-constructed value is the canonical null: it stores
    [0x7FFF800000000000], the word of [JsonValue(JSON_TAG_NULL, nullptr)],
    its tag is [JSON_TAG_NULL]; [operator bool] is false for that word
    only, so a null-tagged value with a nonzero payload converts to
    true. *)
Theorem default_value_is_canonical_null (w p : Z) (v : JsonValue) :
  u64 p <> 0 -> JsonValue_tagged JSON_TAG_NULL p = Some v ->
  data_i JsonValue_default = 0x7FFF800000000000
  /\ JsonValue_tagged JSON_TAG_NULL 0 = Some JsonValue_default
  /\ getTag JsonValue_default = JSON_TAG_NULL
  /\ (JsonValue_bool (mkJsonValue w) = false <-> w = 0x7FFF800000000000)
  /\ getTag v = JSON_TAG_NULL
  /\ JsonValue_bool v = true.
Proof.
  intros Hnz Hv.
  assert (Hwf : JsonTag_wf JSON_TAG_NULL)
    by (unfold JsonTag_wf, JSON_TAG_NULL; lia).
  destruct (JsonValue_tagged_inv _ _ _ Hwf Hv) as [Hp Hw].
  destruct v as [x]. cbn [data_i] in Hw. subst x.
  repeat split.
  - unfold JsonValue_bool. cbn [data_i]. intros H.
    apply negb_false_iff, Z.eqb_eq in H. exact H.
  - intros ->. reflexivity.
  - apply getTag_boxed; assumption.
  - unfold JsonValue_bool. cbn [data_i].
    apply negb_true_iff, Z.eqb_neq.
    unfold boxed, JSON_TAG_NULL, JSON_VALUE_NULL. lia.
Qed.

Lemma default_value_is_canonical_null_witness :
  data_i JsonValue_default = 0x7FFF800000000000
  /\ JsonValue_tagged JSON_TAG_NULL 0 = Some JsonValue_default
  /\ getTag JsonValue_default = JSON_TAG_NULL
  /\ (JsonValue_bool (mkJsonValue 0) = false <-> 0 = 0x7FFF800000000000)
  /\ getTag (mkJsonValue 0x7FFF800000000001) = JSON_TAG_NULL
  /\ JsonValue_bool (mkJsonValue 0x7FFF800000000001) = true.
Proof.
  apply (default_value_is_canonical_null 0 1
           (mkJsonValue 0x7FFF800000000001)).
  - vm_compute. discriminate.
  - reflexivity.
Defined.

End Constructors.

(** ** Classification of words and the guarded accessors *)

Section Classification.






Lemma getPayload_not_double (v : JsonValue) :
  isDouble v = false ->
  getPayload v = Some (Z.land (data_i v) JSON_VALUE_PAYLOAD_MASK).
Proof. intros H. unfold getPayload. rewrite H. reflexivity. Qed.

Lemma getTag_not_number (v : JsonValue) :
  getTag v <> JSON_TAG_NUMBER -> isDouble v = false.
Proof.
  unfold getTag. destruct (isDouble v); [ | reflexivity].
  intros H. contradiction H. reflexivity.
Qed.

(** What a pointer-returning accessor guarded by [tag] gives. *)
Lemma guarded_payload (v : JsonValue) (tag : JsonTag) :
  tag <> JSON_TAG_NUMBER ->
  (getTag v = tag ->
     (assert (getTag v =? tag);; getPayload v)
     = Some (Z.land (data_i v) JSON_VALUE_PAYLOAD_MASK))
  /\ (getTag v <> tag -> (assert (getTag v =? tag);; getPayload v) = None).
Proof.
  intros Hne. split; intros H.
  - rewrite H, Z.eqb_refl. cbn [assert mbind option_bind].
    apply getPayload_not_double, getTag_not_number. congruence.
  - apply assert_bind_none, Z.eqb_neq, H.
Qed.

(** C4.  Each type-specific accessor is guarded by its tag: when the tag
    matches, the assertion passes and the accessor returns the stored
    payload; on any other tag the assertion trips. *)
Theorem accessors_guarded_by_tag (v : JsonValue) :
  let payload := Z.land (data_i v) JSON_VALUE_PAYLOAD_MASK in
  (getTag v = JSON_TAG_NUMBER -> toNumber v = Some (data_f v))
  /\ (getTag v <> JSON_TAG_NUMBER -> toNumber v = None)
  /\ (getTag v = JSON_TAG_BOOL -> toBool v = Some (bool_of_Z payload))
  /\ (getTag v <> JSON_TAG_BOOL -> toBool v = None)
  /\ (getTag v = JSON_TAG_STRING -> toString v = Some payload)
  /\ (getTag v <> JSON_TAG_STRING -> toString v = None)
  /\ (getTag v = JSON_TAG_ARRAY -> toElement v = Some payload)
  /\ (getTag v <> JSON_TAG_ARRAY -> toElement v = None)
  /\ (getTag v = JSON_TAG_OBJECT -> toPair v = Some payload)
  /\ (getTag v <> JSON_TAG_OBJECT -> toPair v = None).
Proof.
  intros payload. subst payload.
  split; [ | split].
  - intros H. unfold toNumber. rewrite H. reflexivity.
  - intros H. apply assert_bind_none, Z.eqb_neq, H.
  - split; [ | split].
    + intros H. unfold toBool. rewrite H, Z.eqb_refl.
      cbn [assert mbind option_bind].
      rewrite getPayload_not_double; [reflexivity | ].
      apply getTag_not_number. rewrite H. discriminate.
    + intros H. apply assert_bind_none, Z.eqb_neq, H.
    + repeat split;
        first [ apply (guarded_payload v JSON_TAG_STRING)
              | apply (guarded_payload v JSON_TAG_ARRAY)
              | apply (guarded_payload v JSON_TAG_OBJECT) ];
        discriminate.
Qed.

Lemma accessors_guarded_by_tag_witness :
  toBool (mkJsonValue 0x7FF9000000000001) = Some true
  /\ toNumber (mkJsonValue 0x7FF9000000000001) = None
  /\ toElement (mkJsonValue 0x7FF9000000000001) = None.
Proof.
  pose proof (accessors_guarded_by_tag (mkJsonValue 0x7FF9000000000001))
    as H.
  cbv zeta in H. destruct H as (_ & Hn & Hb & _ & _ & _ & _ & He & _).
  split; [exact (Hb eq_refl) | split; [apply Hn | apply He]]; discriminate.
Defined.

End Classification.

(** ** Words, tags and payloads beyond the constructors *)

Section WordFields.

(** A word that is no number lies strictly between the quiet-NaN mask and
    [2 ^ 63]. *)
Lemma not_double_range (v : JsonValue) :
  is_u64 (data_i v) -> isDouble v = false ->
  JSON_VALUE_NAN_MASK < data_i v < 2 ^ 63.
Proof.
  unfold is_u64, isDouble. rewrite s64_nan_mask. intros Hw Hd.
  apply Z.leb_gt in Hd. unfold JSON_VALUE_NAN_MASK in *.
  destruct (Z.lt_ge_cases (data_i v) (2 ^ 63)) as [Hlt | Hge].
  - rewrite s64_small in Hd by lia. lia.
  - rewrite s64_large in Hd by lia. lia.
Qed.

(** The fields of such a word: it is the boxed word of its tag field and
    its payload field. *)
Lemma word_fields (w : Z) :
  JSON_VALUE_NAN_MASK < w < 2 ^ 63 ->
  let tag := Z.land (Z.shiftr w JSON_VALUE_TAG_SHIFT) JSON_VALUE_TAG_MASK in
  let x := Z.land w JSON_VALUE_PAYLOAD_MASK in
  tag = w / 2 ^ 47 - 0xFFF0
  /\ JsonTag_wf tag /\ 0 <= x <= JSON_VALUE_PAYLOAD_MASK
  /\ w = boxed tag x.
Proof.
  unfold JSON_VALUE_NAN_MASK. intros Hw. cbv zeta.
  unfold JSON_VALUE_TAG_SHIFT, JSON_VALUE_TAG_MASK, JSON_VALUE_PAYLOAD_MASK,
    JsonTag_wf, boxed.
  rewrite Z.shiftr_div_pow2 by lia.
  change 0xF with (Z.ones 4). change 0x00007FFFFFFFFFFF with (Z.ones 47).
  rewrite !Z.land_ones by lia.
  pose proof (Z.div_mod w (2 ^ 47) ltac:(lia)) as Hdm.
  pose proof (Z.mod_pos_bound w (2 ^ 47) ltac:(lia)) as Hm.
  assert (Hq : 0xFFF0 <= w / 2 ^ 47 < 0x10000).
  { split; [apply Z.div_le_lower_bound; lia
           | apply Z.div_lt_upper_bound; lia]. }
  assert (Ht : (w / 2 ^ 47) mod 2 ^ 4 = w / 2 ^ 47 - 0xFFF0).
  { replace (w / 2 ^ 47) with ((w / 2 ^ 47 - 0xFFF0) + 0xFFF * 2 ^ 4) at 1
      by lia.
    rewrite Z.mod_add by lia. apply Z.mod_small. lia. }
  rewrite Ht. change (Z.ones 47) with 0x00007FFFFFFFFFFF.
  change (Z.ones 4) with 0xF. lia.
Qed.

Lemma boxed_is_nan (tag x : Z) :
  JsonTag_wf tag -> 0 <= x <= JSON_VALUE_PAYLOAD_MASK ->
  double_is_nan (boxed tag x) = true.
Proof.
  unfold JsonTag_wf, JSON_VALUE_PAYLOAD_MASK. intros Ht Hx.
  unfold double_is_nan, double_exponent, double_fraction, boxed.
  rewrite Z.shiftr_div_pow2 by lia.
  change 0x7FF with (Z.ones 11) at 1.
  change 0xFFFFFFFFFFFFF with (Z.ones 52).
  rewrite !Z.land_ones by lia.
  replace ((0xFFF0 + tag) * 2 ^ 47 + x)
    with ((2 ^ 51 + tag * 2 ^ 47 + x) + 0x7FF * 2 ^ 52) by lia.
  rewrite Z.div_add, Z.mod_add by lia.
  rewrite Z.div_small, (Z.mod_small (2 ^ 51 + tag * 2 ^ 47 + x)) by lia.
  apply andb_true_iff. split.
  - apply Z.eqb_eq. reflexivity.
  - apply negb_true_iff, Z.eqb_neq. lia.
Qed.

Lemma returned_assert {A : Type} (c : bool) (k : option A) :
  returned (assert c;; k) = c && returned k.
Proof. destruct c; reflexivity. Qed.

Lemma returned_guarded (v : JsonValue) (tag : JsonTag) :
  tag <> JSON_TAG_NUMBER ->
  returned (assert (getTag v =? tag);; getPayload v) = (getTag v =? tag).
Proof.
  intros Hne. destruct (guarded_payload v tag Hne) as [Hy Hn].
  destruct (Z.eq_dec (getTag v) tag) as [He | He].
  - rewrite (Hy He). symmetry. apply Z.eqb_eq, He.
  - rewrite (Hn He). symmetry. apply Z.eqb_neq, He.
Qed.

End WordFields.

Section ValueLaws.

(** X1.  Decoding then encoding gives the word back: a 64-bit word that
    [isDouble] rejects is exactly the word the tagged constructor builds
    from its own [getTag] and [getPayload]; the constructor's assertions
    pass on them. *)
Theorem tagged_word_rebuilt (v : JsonValue) :
  is_u64 (data_i v) -> isDouble v = false ->
  exists p, getPayload v = Some p
            /\ 0 <= p <= JSON_VALUE_PAYLOAD_MASK
            /\ JsonTag_wf (getTag v)
            /\ JsonValue_tagged (getTag v) p = Some v.
Proof.
  intros Hw Hd.
  pose proof (not_double_range v Hw Hd) as Hr.
  destruct (word_fields (data_i v) Hr) as (_ & Ht & Hx & Hbox).
  exists (Z.land (data_i v) JSON_VALUE_PAYLOAD_MASK).
  assert (Hg : getTag v
               = Z.land (Z.shiftr (data_i v) JSON_VALUE_TAG_SHIFT)
                        JSON_VALUE_TAG_MASK)
    by (unfold getTag; rewrite Hd; reflexivity).
  rewrite Hg. split; [apply getPayload_not_double, Hd | ].
  split; [exact Hx | ]. split; [exact Ht | ].
  rewrite JsonValue_tagged_some by assumption.
  destruct v as [w]. cbn [data_i] in *. congruence.
Qed.

Lemma tagged_word_rebuilt_witness :
  exists p, getPayload (mkJsonValue 0x7FFA000000ABCDEF) = Some p
            /\ 0 <= p <= JSON_VALUE_PAYLOAD_MASK
            /\ JsonTag_wf (getTag (mkJsonValue 0x7FFA000000ABCDEF))
            /\ JsonValue_tagged (getTag (mkJsonValue 0x7FFA000000ABCDEF)) p
               = Some (mkJsonValue 0x7FFA000000ABCDEF).
Proof.
  apply (tagged_word_rebuilt (mkJsonValue 0x7FFA000000ABCDEF)).
  - unfold is_u64. cbn. lia.
  - reflexivity.
Defined.

(** X2.  The tagged constructor is injective: two constructions that
    store the same word were given the same tag and the same pointer. *)
Theorem tagged_constructor_injective
    (tag1 tag2 : JsonTag) (p1 p2 : Z) (v : JsonValue) :
  JsonTag_wf tag1 -> JsonTag_wf tag2 -> is_u64 p1 -> is_u64 p2 ->
  JsonValue_tagged tag1 p1 = Some v -> JsonValue_tagged tag2 p2 = Some v ->
  tag1 = tag2 /\ p1 = p2.
Proof.
  unfold is_u64. intros Ht1 Ht2 Hu1 Hu2 H1 H2.
  destruct (JsonValue_tagged_inv tag1 p1 v Ht1 H1) as [Hp1 Hw1].
  destruct (JsonValue_tagged_inv tag2 p2 v Ht2 H2) as [Hp2 Hw2].
  rewrite Hw1 in Hw2. unfold u64 in *.
  rewrite (Z.mod_small p1) in * by lia.
  rewrite (Z.mod_small p2) in * by lia.
  unfold boxed, JsonTag_wf, JSON_VALUE_PAYLOAD_MASK in *. lia.
Qed.

Lemma tagged_constructor_injective_witness :
  JSON_TAG_ARRAY = JSON_TAG_ARRAY /\ 0x10 = 0x10.
Proof.
  apply (tagged_constructor_injective JSON_TAG_ARRAY JSON_TAG_ARRAY
           0x10 0x10 (mkJsonValue 0x7FF9800000000010)).
  - unfold JsonTag_wf, JSON_TAG_ARRAY. lia.
  - unfold JsonTag_wf, JSON_TAG_ARRAY. lia.
  - unfold is_u64. lia.
  - unfold is_u64. lia.
  - reflexivity.
  - reflexivity.
Defined.

(** X3.  Which doubles [JsonValue(double)] keeps.  [toNumber] gives the
    stored double back for every bit pattern outside
    [0x7FF8800000000000 .. 0x7FFFFFFFFFFFFFFF].  The patterns inside are
    all NaNs; on them [toNumber] trips its assertion, [getTag] reads bits
    47 to 50 as a tag from 1 to 15 and [getPayload] returns the low 47
    bits as if they were a pointer. *)
Theorem double_storage_exact (x : double) :
  is_u64 x ->
  (toNumber (JsonValue_double x) = Some x
     <-> ~ 0x7FF8800000000000 <= x < 2 ^ 63)
  /\ (0x7FF8800000000000 <= x < 2 ^ 63 ->
      double_is_nan x = true
      /\ toNumber (JsonValue_double x) = None
      /\ getTag (JsonValue_double x) = x / 2 ^ 47 - 0xFFF0
      /\ 1 <= getTag (JsonValue_double x) <= 0xF
      /\ getPayload (JsonValue_double x) = Some (x mod 2 ^ 47)).
Proof.
  intros Hx.
  assert (Hcases : (~ 0x7FF8800000000000 <= x < 2 ^ 63
                    /\ getTag (JsonValue_double x) = JSON_TAG_NUMBER)
                   \/ (0x7FF8800000000000 <= x < 2 ^ 63
                       /\ isDouble (JsonValue_double x) = false
                       /\ getTag (JsonValue_double x) = x / 2 ^ 47 - 0xFFF0
                       /\ 1 <= x / 2 ^ 47 - 0xFFF0 <= 0xF
                       /\ double_is_nan x = true)).
  { unfold getTag.
    destruct (isDouble (JsonValue_double x)) eqn:Hd.
    - left. split; [ | reflexivity].
      unfold isDouble, JsonValue_double in Hd. cbn [data_i] in Hd.
      rewrite s64_nan_mask in Hd. apply Z.leb_le in Hd.
      unfold JSON_VALUE_NAN_MASK in Hd. intros Hr.
      rewrite s64_small in Hd by lia. lia.
    - pose proof (not_double_range (JsonValue_double x) Hx Hd) as Hr.
      cbn [JsonValue_double data_i] in *.
      destruct (word_fields x Hr) as (Htag & Ht & Hp & Hbox).
      cbv zeta in *. unfold JSON_VALUE_NAN_MASK in Hr.
      set (tag := Z.land (Z.shiftr x JSON_VALUE_TAG_SHIFT)
                         JSON_VALUE_TAG_MASK) in *.
      unfold JsonTag_wf, JSON_VALUE_PAYLOAD_MASK, boxed, JSON_TAG_NUMBER in *.
      destruct (Z.eq_dec tag 0) as [Hz | Hnz].
      + left. split; [lia | exact Hz].
      + right. split; [lia | ]. split; [reflexivity | ].
        split; [exact Htag | ]. split; [lia | ].
        rewrite Hbox. apply boxed_is_nan;
          unfold JsonTag_wf, JSON_VALUE_PAYLOAD_MASK; lia. }
  unfold toNumber.
  destruct Hcases as [[Hout Hg] | (Hin & Hd & Hg & Hrange & Hnan)].
  - rewrite Hg. cbn. unfold data_f, JsonValue_double. cbn.
    split; [tauto | ]. intros Hin. contradiction.
  - rewrite Hg.
    assert (Hne : (x / 2 ^ 47 - 0xFFF0 =? JSON_TAG_NUMBER) = false)
      by (apply Z.eqb_neq; unfold JSON_TAG_NUMBER; lia).
    rewrite Hne. cbn [assert mbind option_bind].
    split; [split; [discriminate | tauto] | ]. intros _.
    split; [exact Hnan | ]. split; [reflexivity | ].
    split; [reflexivity | ]. split; [exact Hrange | ].
    rewrite getPayload_not_double by exact Hd.
    unfold JsonValue_double, JSON_VALUE_PAYLOAD_MASK. cbn [data_i].
    change 0x00007FFFFFFFFFFF with (Z.ones 47).
    rewrite Z.land_ones by lia. reflexivity.
Qed.

Lemma double_storage_exact_witness :
  (toNumber (JsonValue_double 0x7FF9000000000001)
   = Some 0x7FF9000000000001
     <-> ~ 0x7FF8800000000000 <= 0x7FF9000000000001 < 2 ^ 63)
  /\ (0x7FF8800000000000 <= 0x7FF9000000000001 < 2 ^ 63 ->
      double_is_nan 0x7FF9000000000001 = true
      /\ toNumber (JsonValue_double 0x7FF9000000000001) = None
      /\ getTag (JsonValue_double 0x7FF9000000000001)
         = 0x7FF9000000000001 / 2 ^ 47 - 0xFFF0
      /\ 1 <= getTag (JsonValue_double 0x7FF9000000000001) <= 0xF
      /\ getPayload (JsonValue_double 0x7FF9000000000001)
         = Some (0x7FF9000000000001 mod 2 ^ 47)).
Proof.
  apply (double_storage_exact 0x7FF9000000000001).
  unfold is_u64. lia.
Defined.

(** X4.  Ranges and the guard of [getPayload]: [getTag] always yields a
    value from 0 to 15, [getPayload] trips its assertion exactly on the
    words [isDouble] accepts, what it returns otherwise fits 47 bits, and
    a double that is not a NaN therefore has no payload. *)
Theorem payload_guard_and_ranges (v : JsonValue) :
  JsonTag_wf (getTag v)
  /\ (getPayload v = None <-> isDouble v = true)
  /\ (forall p, getPayload v = Some p ->
        0 <= p <= JSON_VALUE_PAYLOAD_MASK)
  /\ (forall x, is_u64 x -> double_is_nan x = false ->
        getPayload (JsonValue_double x) = None).
Proof.
  assert (Hland : forall w n, 0 <= n -> 0 <= Z.land w (Z.ones n) <= Z.ones n).
  { intros w n Hn. rewrite Z.land_ones by assumption.
    pose proof (Z.mod_pos_bound w (2 ^ n) ltac:(lia)) as Hm.
    rewrite Z.ones_equiv. lia. }
  split; [ | split; [ | split]].
  - unfold getTag, JsonTag_wf.
    destruct (isDouble v); [unfold JSON_TAG_NUMBER; lia | ].
    apply (Hland _ 4). lia.
  - unfold getPayload. destruct (isDouble v); cbn; split; congruence.
  - intros p. unfold getPayload. destruct (isDouble v); cbn; [discriminate | ].
    intros [= <-]. apply (Hland _ 47). lia.
  - intros x Hx Hnan. unfold getPayload.
    rewrite (not_nan_isDouble x Hx Hnan). reflexivity.
Qed.

Lemma payload_guard_and_ranges_witness :
  JsonTag_wf (getTag (mkJsonValue 0x7FFFFFFFFFFFFFFF))
  /\ getPayload (mkJsonValue 0xC000000000000000) = None
  /\ 0 <= 0x7FFFFFFFFFFF <= JSON_VALUE_PAYLOAD_MASK
  /\ getPayload (JsonValue_double 0x4008000000000000) = None.
Proof.
  destruct (payload_guard_and_ranges (mkJsonValue 0xC000000000000000))
    as (_ & Hn & _ & _).
  destruct (payload_guard_and_ranges (mkJsonValue 0x7FFFFFFFFFFFFFFF))
    as (Ht & _ & Hp & Hx).
  split; [exact Ht | ]. split; [apply Hn; reflexivity | ].
  split; [apply Hp; reflexivity | ].
  apply Hx; [unfold is_u64; lia | reflexivity].
Defined.

(** X5.  The typed accessors exclude one another: on a value whose tag
    is one of number, string, bool, array and object, exactly the
    accessor of that tag returns; on every other tag, [JSON_TAG_NULL] and
    the values 5 to 14 that are no enumerator, none of the five does. *)
Theorem accessors_mutually_exclusive (v : JsonValue) :
  returning v
  = if existsb (Z.eqb (getTag v))
         [JSON_TAG_NUMBER; JSON_TAG_STRING; JSON_TAG_BOOL;
          JSON_TAG_ARRAY; JSON_TAG_OBJECT]
    then [getTag v] else [].
Proof.
  unfold returning, typed_accessors. cbn [List.filter snd existsb].
  assert (Hn : returned (toNumber v) = (getTag v =? JSON_TAG_NUMBER)).
  { unfold toNumber. rewrite returned_assert. apply andb_true_r. }
  assert (Hb : returned (toBool v) = (getTag v =? JSON_TAG_BOOL)).
  { rewrite <- (returned_guarded v JSON_TAG_BOOL) by discriminate.
    unfold toBool. rewrite !returned_assert. f_equal.
    destruct (getPayload v); reflexivity. }
  rewrite Hn, Hb.
  unfold toString, toElement, toPair.
  rewrite !returned_guarded by discriminate.
  unfold JSON_TAG_NUMBER, JSON_TAG_STRING, JSON_TAG_BOOL, JSON_TAG_ARRAY,
    JSON_TAG_OBJECT.
  destruct (Z.eqb_spec (getTag v) 0) as [-> | H0];
    [reflexivity | ].
  destruct (Z.eqb_spec (getTag v) 1) as [-> | H1];
    [reflexivity | ].
  destruct (Z.eqb_spec (getTag v) 2) as [-> | H2];
    [reflexivity | ].
  destruct (Z.eqb_spec (getTag v) 3) as [-> | H3];
    [reflexivity | ].
  destruct (Z.eqb_spec (getTag v) 4) as [-> | H4];
    reflexivity.
Qed.



(** X7.  Constructor and accessor compose to a round trip: for a pointer
    that fits 47 bits, [toString], [toElement] and [toPair] return the
    pointer the value was built from under the matching tag, [toBool]
    returns whether it is nonzero, and a null-tagged value keeps its
    payload. *)
Theorem constructor_accessor_roundtrip (p : Z) :
  0 <= p <= JSON_VALUE_PAYLOAD_MASK ->
  (v ← JsonValue_tagged JSON_TAG_STRING p; toString v) = Some p
  /\ (v ← JsonValue_tagged JSON_TAG_ARRAY p; toElement v) = Some p
  /\ (v ← JsonValue_tagged JSON_TAG_OBJECT p; toPair v) = Some p
  /\ (v ← JsonValue_tagged JSON_TAG_BOOL p; toBool v) = Some (bool_of_Z p)
  /\ (v ← JsonValue_tagged JSON_TAG_NULL p; getPayload v) = Some p.
Proof.
  intros Hp.
  assert (Hrt : forall tag, JsonTag_wf tag -> tag <> JSON_TAG_NUMBER ->
            exists v, JsonValue_tagged tag p = Some v
                      /\ getTag v = tag /\ getPayload v = Some p).
  { intros tag Ht Hne. eexists. split; [apply JsonValue_tagged_some | ];
      [assumption .. | ].
    split; [apply getTag_boxed; assumption | ].
    rewrite getPayload_not_double.
    - cbn [data_i]. rewrite boxed_payload_field by assumption. reflexivity.
    - apply getTag_not_number. rewrite getTag_boxed by assumption.
      exact Hne. }
  assert (Hwf : forall tag, In tag [JSON_TAG_STRING; JSON_TAG_ARRAY;
                  JSON_TAG_OBJECT; JSON_TAG_BOOL; JSON_TAG_NULL] ->
                JsonTag_wf tag /\ tag <> JSON_TAG_NUMBER).
  { intros tag Hin. unfold JsonTag_wf. cbn in Hin.
    unfold JSON_TAG_STRING, JSON_TAG_BOOL, JSON_TAG_ARRAY,
      JSON_TAG_OBJECT, JSON_TAG_NULL, JSON_TAG_NUMBER in *. lia. }
  repeat split.
  - destruct (Hwf JSON_TAG_STRING) as [Ht Hne]; [cbn; tauto | ].
    destruct (Hrt _ Ht Hne) as (v & -> & Hg & Hpay). cbn.
    unfold toString. rewrite Hg. exact Hpay.
  - destruct (Hwf JSON_TAG_ARRAY) as [Ht Hne]; [cbn; tauto | ].
    destruct (Hrt _ Ht Hne) as (v & -> & Hg & Hpay). cbn.
    unfold toElement. rewrite Hg. exact Hpay.
  - destruct (Hwf JSON_TAG_OBJECT) as [Ht Hne]; [cbn; tauto | ].
    destruct (Hrt _ Ht Hne) as (v & -> & Hg & Hpay). cbn.
    unfold toPair. rewrite Hg. exact Hpay.
  - destruct (Hwf JSON_TAG_BOOL) as [Ht Hne]; [cbn; tauto | ].
    destruct (Hrt _ Ht Hne) as (v & -> & Hg & Hpay). cbn.
    unfold toBool. rewrite Hg, Hpay. reflexivity.
  - destruct (Hwf JSON_TAG_NULL) as [Ht Hne]; [cbn; tauto | ].
    destruct (Hrt _ Ht Hne) as (v & -> & Hg & Hpay). cbn. exact Hpay.
Qed.

Lemma constructor_accessor_roundtrip_witness :
  (v ← JsonValue_tagged JSON_TAG_STRING 0x10000; toString v) = Some 0x10000
  /\ (v ← JsonValue_tagged JSON_TAG_ARRAY 0x10000; toElement v)
     = Some 0x10000
  /\ (v ← JsonValue_tagged JSON_TAG_OBJECT 0x10000; toPair v) = Some 0x10000
  /\ (v ← JsonValue_tagged JSON_TAG_BOOL 0x10000; toBool v)
     = Some (bool_of_Z 0x10000)
  /\ (v ← JsonValue_tagged JSON_TAG_NULL 0x10000; getPayload v)
     = Some 0x10000.
Proof.
  apply (constructor_accessor_roundtrip 0x10000).
  unfold JSON_VALUE_PAYLOAD_MASK. lia.
Defined.

(** X8.  Every word the tagged constructor stores is a NaN when read as a
    double, whatever the tag, [JSON_TAG_NUMBER] included; no double that
    is not a NaN shares its word with a tagged value. *)
Theorem tagged_value_is_nan
    (tag : JsonTag) (p : Z) (v : JsonValue) (x : double) :
  JsonTag_wf tag -> JsonValue_tagged tag p = Some v ->
  double_is_nan x = false ->
  double_is_nan (data_f v) = true /\ JsonValue_double x <> v.
Proof.
  intros Ht Hv Hx.
  destruct (JsonValue_tagged_inv tag p v Ht Hv) as [Hp Hw].
  assert (Hnan : double_is_nan (data_f v) = true).
  { unfold data_f. rewrite Hw. apply boxed_is_nan; assumption. }
  split; [exact Hnan | ].
  intros <-. unfold data_f, JsonValue_double in Hnan. cbn [data_i] in Hnan.
  congruence.
Qed.

Lemma tagged_value_is_nan_witness :
  double_is_nan (data_f (mkJsonValue 0x7FF8000000000007)) = true
  /\ JsonValue_double 0x7FF0000000000000 <> mkJsonValue 0x7FF8000000000007.
Proof.
  apply (tagged_value_is_nan JSON_TAG_NUMBER 7
           (mkJsonValue 0x7FF8000000000007) 0x7FF0000000000000).
  - unfold JsonTag_wf, JSON_TAG_NUMBER. lia.
  - reflexivity.
  - reflexivity.
Defined.

End ValueLaws.

(** ** The parse status *)

Section Status.

Lemma JsonParseStatus_value_inj (a b : JsonParseStatus) :
  JsonParseStatus_value a = JsonParseStatus_value b -> a = b.
Proof. destruct a, b; cbn; intros H; first [reflexivity | discriminate H]. Qed.

Lemma error_kinds_spec (s : JsonParseStatus) :
  In s error_kinds <-> s <> JSON_PARSE_OK.
Proof.
  split.
  - intros Hin ->. cbn in Hin. intuition discriminate.
  - intros Hne. destruct s; cbn; tauto.
Qed.

Lemma error_kinds_NoDup : List.NoDup error_kinds.
Proof.
  cbn. repeat constructor; cbn; intuition discriminate.
Qed.

(** C3, as the code has it.  The status type is closed: a status is one
    of the eight enumerators, which stand for the integers 0 to 7 and
    are pairwise distinct; they are the success kind and seven error
    kinds, and a status that is not the success kind is exactly one of
    those seven. *)
Theorem error_taxonomy_closed :
  (forall s : JsonParseStatus,
      s = JSON_PARSE_OK \/ s = JSON_PARSE_BAD_NUMBER
      \/ s = JSON_PARSE_BAD_STRING \/ s = JSON_PARSE_UNKNOWN_IDENTIFIER
      \/ s = JSON_PARSE_OVERFLOW \/ s = JSON_PARSE_UNDERFLOW
      \/ s = JSON_PARSE_MISMATCH_BRACKET
      \/ s = JSON_PARSE_UNEXPECTED_CHARACTER)
  /\ (forall s, 0 <= JsonParseStatus_value s <= 7)
  /\ (forall a b, JsonParseStatus_value a = JsonParseStatus_value b -> a = b)
  /\ List.NoDup JsonParseStatus_all
  /\ length JsonParseStatus_all = 8%nat
  /\ error_kinds
     = [JSON_PARSE_BAD_NUMBER; JSON_PARSE_BAD_STRING;
        JSON_PARSE_UNKNOWN_IDENTIFIER; JSON_PARSE_OVERFLOW;
        JSON_PARSE_UNDERFLOW; JSON_PARSE_MISMATCH_BRACKET;
        JSON_PARSE_UNEXPECTED_CHARACTER]
  /\ length error_kinds = 7%nat
  /\ (forall s, is_error s = true ->
        length (List.filter (JsonParseStatus_eqb s) error_kinds) = 1%nat).
Proof.
  split; [intros s; destruct s; tauto | ].
  split; [intros s; destruct s; cbn; lia | ].
  split; [exact JsonParseStatus_value_inj | ].
  split; [cbn; repeat constructor; cbn; intuition discriminate | ].
  split; [reflexivity | ]. split; [reflexivity | ]. split; [reflexivity | ].
  intros s Hs. destruct s; first [discriminate Hs | reflexivity].
Qed.

Lemma error_taxonomy_closed_witness :
  length (List.filter (JsonParseStatus_eqb JSON_PARSE_MISMATCH_BRACKET)
            error_kinds) = 1%nat.
Proof.
  destruct error_taxonomy_closed as (_ & _ & _ & _ & _ & _ & _ & H).
  apply (H JSON_PARSE_MISMATCH_BRACKET). reflexivity.
Defined.

(** C3 as stated asks for eight error kinds next to the success kind:
    there are no eight distinct statuses other than [JSON_PARSE_OK]. *)
Lemma no_eight_error_kinds :
  ~ exists l : list JsonParseStatus,
      List.NoDup l /\ length l = 8%nat
      /\ (forall s, In s l -> s <> JSON_PARSE_OK).
Proof.
  intros (l & Hnd & Hlen & Herr).
  assert (Hincl : incl l error_kinds).
  { intros s Hs. apply error_kinds_spec, Herr, Hs. }
  pose proof (List.NoDup_incl_length Hnd Hincl) as Hle.
  rewrite Hlen in Hle. cbn in Hle. lia.
Qed.

End Status.

(** ** Calling the read accessors on an object *)

Section ReadAccessors.

Import Accessors.

Lemma call_const (a : Accessor) (o o' : Object) (r : Result) :
  call a o = Some (r, o') -> o' = o.
Proof.
  destruct a; cbn; intros H.
  - injection H as _ <-. reflexivity.
  - destruct (toNumber (this o)); cbn in H; [ | discriminate H].
    injection H as _ <-. reflexivity.
  - destruct (toBool (this o)); cbn in H; [ | discriminate H].
    injection H as _ <-. reflexivity.
  - destruct (toString (this o)); cbn in H; [ | discriminate H].
    injection H as _ <-. reflexivity.
  - destruct (toElement (this o)); cbn in H; [ | discriminate H].
    injection H as _ <-. reflexivity.
  - destruct (toPair (this o)); cbn in H; [ | discriminate H].
    injection H as _ <-. reflexivity.
Qed.

(** C7.  The read accessors are idempotent and do not mutate: when none
    of the accessors in a sequence trips its assertion on the object,
    the whole sequence runs, leaves the object, the memory of the tree
    and the buffer as they were, and each call returns what the same
    call returns on the initial object, however often it is repeated. *)
Theorem read_accessors_idempotent (l : list Accessor) (o : Object) :
  (forall a, In a l -> is_Some (call a o)) ->
  exists rs,
    calls l o = Some (rs, o)
    /\ length rs = length l
    /\ (forall i a r, l !! i = Some a -> rs !! i = Some r ->
          call a o = Some (r, o)).
Proof.
  induction l as [ | a l IH]; intros Hok.
  - exists []. cbn. split; [reflexivity | split; [reflexivity | ]].
    intros i a r H. rewrite lookup_nil in H. discriminate H.
  - destruct (Hok a (or_introl eq_refl)) as [[r o1] Hcall].
    pose proof (call_const a o o1 r Hcall) as ->.
    destruct IH as (rs & Hrun & Hlen & Hres).
    { intros b Hb. apply Hok. right. exact Hb. }
    exists (r :: rs). cbn [calls]. rewrite Hcall. cbn. rewrite Hrun. cbn.
    split; [reflexivity | split; [f_equal; exact Hlen | ]].
    intros [ | i] b q Hb Hq; cbn in Hb, Hq.
    + injection Hb as <-. injection Hq as <-. exact Hcall.
    + exact (Hres i b q Hb Hq).
Qed.

Lemma read_accessors_idempotent_witness :
  exists rs,
    calls [GetTag; ToBool; GetTag; ToBool; ToBool]
          (mkObject (mkJsonValue 0x7FF9000000000001)
                    (mkMemory 16 ∅ ∅ ∅) [])
    = Some (rs, mkObject (mkJsonValue 0x7FF9000000000001)
                         (mkMemory 16 ∅ ∅ ∅) [])
    /\ length rs = 5%nat
    /\ (forall i a r,
          [GetTag; ToBool; GetTag; ToBool; ToBool] !! i = Some a ->
          rs !! i = Some r ->
          call a (mkObject (mkJsonValue 0x7FF9000000000001)
                           (mkMemory 16 ∅ ∅ ∅) [])
          = Some (r, mkObject (mkJsonValue 0x7FF9000000000001)
                              (mkMemory 16 ∅ ∅ ∅) [])).
Proof.
  apply (read_accessors_idempotent
           [GetTag; ToBool; GetTag; ToBool; ToBool]
           (mkObject (mkJsonValue 0x7FF9000000000001)
                     (mkMemory 16 ∅ ∅ ∅) [])).
  intros a Ha. cbn in Ha.
  destruct Ha as [<- | [<- | [<- | [<- | [<- | []]]]]]; cbn; eauto.
Defined.

End ReadAccessors.

(** ** Construction of the arena *)

Section Arena.

(** C8.  Construction of the arena is free of side effects: the new
    allocator has [head == nullptr], it owns no zone whatever the memory
    holds, and the memory is as it was, so nothing was allocated. *)
Theorem arena_construction_side_effect_free (m : Memory) :
  head (fst (JsonAllocator_new m)) = nullptr
  /\ snd (JsonAllocator_new m) = m
  /\ owned_zones (fst (JsonAllocator_new m)) (snd (JsonAllocator_new m)) = []
  /\ (forall fuel, zone_chain fuel m (head (fst (JsonAllocator_new m))) = []).
Proof.
  split; [reflexivity | ]. split; [reflexivity | ].
  split; [reflexivity | ]. intros [ | fuel]; reflexivity.
Qed.

End Arena.

(** ** Allocation from the arena *)

Section AllocateFacts.

Variable JSON_ZONE_SIZE : Z.

Lemma align_up_bounds (p align : Z) :
  0 < align -> p <= align_up p align < p + align.
Proof.
  intros Ha. unfold align_up.
  pose proof (Z.mul_div_le (p + (align - 1)) align Ha) as Hle.
  pose proof (Z.mul_succ_div_gt (p + (align - 1)) align Ha) as Hgt.
  lia.
Qed.

Lemma arena_wf_new (m : Memory) :
  0 < mem_brk m <= 2 ^ 64 -> arena_wf JSON_ZONE_SIZE (fst (JsonAllocator_new m)) m.
Proof. intros H. split; [exact H | left; reflexivity]. Qed.

Lemma arena_top_bounds (a : JsonAllocator) (m : Memory) :
  arena_wf JSON_ZONE_SIZE a m -> 0 < arena_top a m <= mem_brk m.
Proof.
  intros [Hbrk Hwf]. unfold arena_top.
  destruct Hwf as [-> | (Hpos & z & Hz & Hend & _)].
  - cbn. lia.
  - rewrite Hz. destruct (head a =? nullptr); lia.
Qed.

(** What [allocate] guarantees: the block lies above everything handed
    out before and inside the address space, the top moves to its end,
    and no cell is touched. *)
Lemma allocate_spec (a a' : JsonAllocator) (m m' : Memory) (n align p : Z) :
  arena_wf JSON_ZONE_SIZE a m -> 0 < n -> 0 < align ->
  allocate JSON_ZONE_SIZE a m n align = Some (p, a', m') ->
  arena_top a m <= p
  /\ arena_top a' m' = p + n
  /\ p + n <= 2 ^ 64
  /\ arena_wf JSON_ZONE_SIZE a' m'
  /\ mem_elements m' = mem_elements m
  /\ mem_pairs m' = mem_pairs m.
Proof.
  intros Hwf Hn Hal.
  pose proof (arena_top_bounds a m Hwf) as Htop.
  assert (Hfresh :
    ('(base, m1) ← malloc m (Z.max JSON_ZONE_SIZE (sizeof_Zone + n + align));
     Some (align_up (base + sizeof_Zone) align, mkJsonAllocator base,
           mkMemory (mem_brk m1)
             (<[base := mkZone (head a)
                          (align_up (base + sizeof_Zone) align + n)]>
                (mem_zones m1))
             (mem_elements m1) (mem_pairs m1))) = Some (p, a', m') ->
    arena_top a m <= p /\ arena_top a' m' = p + n /\ p + n <= 2 ^ 64
    /\ arena_wf JSON_ZONE_SIZE a' m'
    /\ mem_elements m' = mem_elements m /\ mem_pairs m' = mem_pairs m).
  { unfold malloc. cbv zeta.
    destruct (align_up (mem_brk m) 16
              + Z.max JSON_ZONE_SIZE (sizeof_Zone + n + align) <=? 2 ^ 64)
      eqn:Hspace; cbn; [ | discriminate].
    apply Z.leb_le in Hspace.
    intros H. injection H as <- <- <-.
    pose proof (align_up_bounds (mem_brk m) 16 ltac:(lia)) as Hb.
    pose proof (align_up_bounds (align_up (mem_brk m) 16 + sizeof_Zone)
                  align Hal) as Hq.
    destruct Hwf as [Hbrk _].
    unfold sizeof_Zone in *.
    unfold arena_top at 2. unfold arena_wf.
    cbn [head mem_brk mem_zones mem_elements mem_pairs].
    rewrite lookup_insert_eq. cbn [zone_end].
    destruct (align_up (mem_brk m) 16 =? nullptr) eqn:He;
      [apply Z.eqb_eq in He; unfold nullptr in He; lia | ].
    split; [lia | ]. split; [reflexivity | ]. split; [lia | ].
    split; [ | split; reflexivity].
    split; [lia | ]. right. split; [lia | ].
    eexists. split; [reflexivity | ]. cbn [zone_end]. lia. }
  unfold allocate.
  destruct (mem_zones m !! head a) as [z | ] eqn:Hz; [ | exact Hfresh].
  destruct (negb (head a =? nullptr)
            && (align_up (zone_end z) align + n <=? head a + JSON_ZONE_SIZE))
    eqn:Hfit; [ | exact Hfresh].
  intros H. injection H as <- <- <-.
  apply andb_true_iff in Hfit. destruct Hfit as [Hh Hroom].
  apply negb_true_iff in Hh. apply Z.leb_le in Hroom.
  destruct Hwf as [Hbrk [Hnull | (Hpos & z' & Hz' & Hend & Hcap)]];
    [apply Z.eqb_neq in Hh; contradiction | ].
  rewrite Hz in Hz'. injection Hz' as <-.
  pose proof (align_up_bounds (zone_end z) align Hal) as Hb.
  unfold arena_top, arena_wf.
  cbn [mem_brk mem_zones mem_elements mem_pairs].
  rewrite lookup_insert_eq, Hz, Hh. cbn [zone_end].
  split; [lia | ]. split; [reflexivity | ]. split; [lia | ].
  split; [ | split; reflexivity].
  split; [lia | ]. right. split; [exact Hpos | ].
  eexists. split; [reflexivity | ]. cbn [zone_end]. lia.
Qed.

(** The first use of a new allocator acquires its first zone. *)
Lemma allocate_first_use (m m' : Memory) (a' : JsonAllocator) (n align p : Z) :
  0 < mem_brk m -> 0 < align ->
  allocate JSON_ZONE_SIZE (fst (JsonAllocator_new m)) m n align = Some (p, a', m') ->
  head a' <> nullptr
  /\ owned_zones a' m' = [head a']
  /\ mem_zones m' = <[head a' := mkZone nullptr (p + n)]> (mem_zones m).
Proof.
  intros Hbrk Hal. unfold allocate, JsonAllocator_new. cbn [fst head].
  pose proof (align_up_bounds (mem_brk m) 16 ltac:(lia)) as Hb.
  assert (Hroom :
    match mem_zones m !! nullptr with
    | Some z =>
        if negb (nullptr =? nullptr)
           && (align_up (zone_end z) align + n <=? nullptr + JSON_ZONE_SIZE)
        then Some (z, align_up (zone_end z) align) else None
    | None => None
    end = None).
  { destruct (mem_zones m !! nullptr); reflexivity. }
  rewrite Hroom. unfold malloc. cbv zeta.
  destruct (_ <=? 2 ^ 64); cbn; [ | discriminate].
  intros H. injection H as <- <- <-.
  cbn [head mem_zones].
  assert (Hne : align_up (mem_brk m) 16 <> nullptr)
    by (unfold nullptr; lia).
  split; [exact Hne | ]. split; [ | reflexivity].
  unfold owned_zones. cbn [zone_chain head mem_zones].
  apply Z.eqb_neq in Hne. rewrite Hne, lookup_insert_eq.
  cbn [zone_next]. destruct (size _); reflexivity.
Qed.

End AllocateFacts.

(** ** The cursor only moves forward *)

Section Progress.

Lemma advances_refl (b : Buffer) : advances b b.
Proof. split; reflexivity. Qed.

Lemma advances_trans (b1 b2 b3 : Buffer) :
  advances b1 b2 -> advances b2 b3 -> advances b1 b3.
Proof. unfold advances. lia. Qed.

Lemma offset_snoc (c r : list ascii) (ch : ascii) :
  offset (mkBuffer (c ++ [ch]) r) = S (length c).
Proof. unfold offset. cbn. rewrite length_app. cbn. lia. Qed.

Lemma skip_space_advances (c r : list ascii) :
  advances (mkBuffer c r) (skip_space c r).
Proof.
  revert c. induction r as [ | ch r IH]; intros c; cbn.
  - apply advances_refl.
  - destruct (is_space ch); [ | apply advances_refl].
    eapply advances_trans; [ | apply IH].
    unfold advances. rewrite offset_snoc. unfold offset. cbn. lia.
Qed.

Lemma span_digits_advances (c r ds : list ascii) (b : Buffer) :
  span_digits c r = (ds, b) ->
  offset b = (length c + length ds)%nat
  /\ (offset b + length (unread b) = length c + length r)%nat.
Proof.
  revert c ds b. induction r as [ | ch r IH]; intros c ds b; cbn.
  - intros H. injection H as <- <-. unfold offset. cbn. lia.
  - destruct (is_digit ch).
    + destruct (span_digits (c ++ [ch]) r) as [ds' b'] eqn:Hs.
      intros H. injection H as <- <-.
      destruct (IH _ _ _ Hs) as [Ho Hl].
      rewrite length_app in Ho, Hl. cbn in *. lia.
    + intros H. injection H as <- <-. unfold offset. cbn. lia.
Qed.

Lemma span_letters_advances (c r ls : list ascii) (b : Buffer) :
  span_letters c r = (ls, b) ->
  offset b = (length c + length ls)%nat
  /\ (offset b + length (unread b) = length c + length r)%nat.
Proof.
  revert c ls b. induction r as [ | ch r IH]; intros c ls b; cbn.
  - intros H. injection H as <- <-. unfold offset. cbn. lia.
  - destruct (is_letter ch).
    + destruct (span_letters (c ++ [ch]) r) as [ls' b'] eqn:Hs.
      intros H. injection H as <- <-.
      destruct (IH _ _ _ Hs) as [Ho Hl].
      rewrite length_app in Ho, Hl. cbn in *. lia.
    + intros H. injection H as <- <-. unfold offset. cbn. lia.
Qed.

Lemma length_write_bytes (bs c : list ascii) (w : nat) :
  length (write_bytes w bs c) = length c.
Proof.
  revert w c. induction bs as [ | x bs IH]; intros w c; cbn;
    [reflexivity | ].
  rewrite IH. apply length_insert.
Qed.

(** A string that decodes to its end moved the cursor past its closing
    quote. *)
Lemma scan_string_advances
    (mode : StringMode) (w : nat) (c r : list ascii) (b : Buffer) :
  scan_string mode w c r = ScanOk tt b ->
  (length c < offset b)%nat
  /\ (offset b + length (unread b) = length c + length r)%nat.
Proof.
  revert mode w c. induction r as [ | ch r IH]; intros mode w c H;
    cbn in H; [discriminate H | ].
  assert (Hstep : forall mode' w' c',
             length c' = S (length c) ->
             scan_string mode' w' c' r = ScanOk tt b ->
             (length c < offset b)%nat
             /\ (offset b + length (unread b)
                 = length c + length (ch :: r))%nat).
  { intros mode' w' c' Hlen Hs. destruct (IH _ _ _ Hs) as [Ho Hl].
    cbn [length]. lia. }
  assert (Hsnoc : length (c ++ [ch]) = S (length c))
    by (rewrite length_app; cbn; lia).
  repeat match type of H with
         | (if ?x then _ else _) = _ => destruct x
         | match ?x with _ => _ end = _ => destruct x
         end;
    first
      [ discriminate H
      | injection H as <-; unfold offset; cbn;
        rewrite length_insert, Hsnoc; lia
      | eapply Hstep; [ | exact H];
        rewrite ?length_insert, ?length_write_bytes; exact Hsnoc ].
Qed.

Lemma scan_fraction_advances (b b' : Buffer) (fp : list ascii) :
  scan_fraction b = ScanOk fp b' -> advances b b'.
Proof.
  unfold scan_fraction. destruct b as [c r]. cbn [unread consumed].
  destruct r as [ | ch r]; [intros H; injection H as _ <-; apply advances_refl | ].
  destruct (ch =? ".")%char;
    [ | intros H; injection H as _ <-; apply advances_refl].
  destruct (span_digits (c ++ [ch]) r) as [ds b2] eqn:Hs.
  destruct ds; [discriminate | ]. intros H. injection H as _ <-.
  destruct (span_digits_advances _ _ _ _ Hs) as [Ho Hl].
  rewrite length_app in Ho, Hl. unfold advances, offset in *. cbn in *. lia.
Qed.

Lemma scan_exponent_advances (b b' : Buffer) (e : Z) :
  scan_exponent b = ScanOk e b' -> advances b b'.
Proof.
  unfold scan_exponent. destruct b as [c r]. cbn [unread consumed].
  destruct r as [ | ch r]; [intros H; injection H as _ <-; apply advances_refl | ].
  destruct ((ch =? "e")%char || (ch =? "E")%char);
    [ | intros H; injection H as _ <-; apply advances_refl].
  set (sgn := match r with
              | sg :: r' =>
                  if (sg =? "-")%char then (true, (c ++ [ch]) ++ [sg], r')
                  else if (sg =? "+")%char then (false, (c ++ [ch]) ++ [sg], r')
                  else (false, c ++ [ch], r)
              | [] => (false, c ++ [ch], r)
              end).
  assert (Hsgn : (length c < length (snd (fst sgn)))%nat
                 /\ (length (snd (fst sgn)) + length (snd sgn)
                     = length c + S (length r))%nat).
  { subst sgn. destruct r as [ | sg r']; cbn.
    - rewrite length_app. cbn. lia.
    - destruct (sg =? "-")%char; [ | destruct (sg =? "+")%char]; cbn;
        rewrite ?length_app; cbn; lia. }
  destruct sgn as [[neg c2] r2]. cbn [fst snd] in Hsgn.
  destruct (span_digits c2 r2) as [ds b2] eqn:Hs.
  destruct ds; [discriminate | ]. intros H. injection H as _ <-.
  destruct (span_digits_advances _ _ _ _ Hs) as [Ho Hl].
  unfold advances, offset in *. cbn in *. lia.
Qed.

Lemma number_value_buffer (neg : bool) (mant e : Z) (b b' : Buffer)
    (v : JsonValue) :
  number_value neg mant e b = ScanOk v b' -> b' = b.
Proof.
  unfold number_value.
  destruct (decimal_to_binary64 neg mant e); try discriminate.
  - destruct (mant =? 0); [ | discriminate]. intros H. injection H as _ <-.
    reflexivity.
  - intros H. injection H as _ <-. reflexivity.
Qed.

(** A number that scans moved the cursor over at least one digit. *)
Lemma scan_number_advances (b b' : Buffer) (v : JsonValue) :
  scan_number b = ScanOk v b' ->
  (offset b < offset b')%nat
  /\ (offset b' + length (unread b') = offset b + length (unread b))%nat.
Proof.
  unfold scan_number. destruct b as [c r]. cbn [unread consumed].
  set (sgn := match r with
              | ch :: r0 => if (ch =? "-")%char then (true, c ++ [ch], r0)
                            else (false, c, r)
              | [] => (false, c, r)
              end).
  assert (Hsgn : (length c <= length (snd (fst sgn)))%nat
                 /\ (length (snd (fst sgn)) + length (snd sgn)
                     = length c + length r)%nat).
  { subst sgn. destruct r as [ | ch r0]; cbn; [lia | ].
    destruct (ch =? "-")%char; cbn; rewrite ?length_app; cbn; lia. }
  destruct sgn as [[neg c1] r1]. cbn [fst snd] in Hsgn.
  destruct (span_digits c1 r1) as [ip b2] eqn:Hs.
  destruct (span_digits_advances _ _ _ _ Hs) as [Ho Hl].
  destruct ip as [ | d ip']; [discriminate | ].
  destruct ((d =? "0")%char && negb (Nat.eqb (length ip') 0));
    [discriminate | ].
  destruct (scan_fraction b2) as [fp b3 | | ] eqn:Hf; try discriminate.
  destruct (scan_exponent b3) as [e b4 | | ] eqn:He; try discriminate.
  destruct (match unread b4 with
            | ch :: _ => is_delimiter ch
            | [] => true
            end); [ | discriminate].
  intros H. apply number_value_buffer in H. subst b'.
  pose proof (scan_fraction_advances _ _ _ Hf) as [Hf1 Hf2].
  pose proof (scan_exponent_advances _ _ _ He) as [He1 He2].
  unfold offset in *. cbn in *. lia.
Qed.

Lemma lift_value_buffer (o : option JsonValue) (b b' : Buffer) (tok : Token) :
  lift_value o b = ScanOk tok b' -> b' = b /\ exists v, tok = TokValue v.
Proof.
  destruct o as [v | ]; cbn; [ | discriminate].
  intros H. injection H as <- <-. eauto.
Qed.

(** A literal that scans moved the cursor over its letters. *)
Lemma scan_literal_advances (b b' : Buffer) (tok : Token) :
  scan_literal b = ScanOk tok b' ->
  (offset b < offset b')%nat
  /\ (offset b' + length (unread b') = offset b + length (unread b))%nat
  /\ exists v, tok = TokValue v.
Proof.
  unfold scan_literal.
  destruct (span_letters (consumed b) (unread b)) as [ls b2] eqn:Hs.
  destruct (span_letters_advances _ _ _ _ Hs) as [Ho Hl].
  assert (Hword : forall w : string,
             (string_of_list_ascii ls =? w)%string = true ->
             length ls = String.length w).
  { intros w Hw. apply String.eqb_eq in Hw. rewrite <- Hw.
    clear. induction ls as [ | x ls IH]; cbn; [reflexivity | ].
    rewrite IH. reflexivity. }
  destruct (string_of_list_ascii ls =? "true")%string eqn:Ht;
    [ | destruct (string_of_list_ascii ls =? "false")%string eqn:Hfa;
        [ | destruct (string_of_list_ascii ls =? "null")%string eqn:Hn;
            [ | discriminate]]];
    intros H; apply lift_value_buffer in H; destruct H as [-> Hv];
    (split; [ | split; [ | exact Hv]]);
    first [ apply Hword in Ht | apply Hword in Hfa | apply Hword in Hn ];
    unfold offset in *; cbn in *; lia.
Qed.

Section WithBuffer.

Variable str : Z.

(** One token: the cursor does not move back, and it moves forward
    unless the token is the end of the text. *)
Lemma scan_token_advances (b b' : Buffer) (tok : Token) :
  scan_token str b = ScanOk tok b' ->
  advances b b' /\ (tok <> TokEnd -> (offset b < offset b')%nat).
Proof.
  unfold scan_token. destruct b as [c r]. cbn [unread consumed].
  destruct r as [ | ch r].
  { intros H. injection H as <- <-. split; [apply advances_refl | ].
    intros Hne. contradiction Hne. reflexivity. }
  assert (Hone : advances (mkBuffer c (ch :: r)) (mkBuffer (c ++ [ch]) r)
                 /\ (offset (mkBuffer c (ch :: r))
                     < offset (mkBuffer (c ++ [ch]) r))%nat).
  { unfold advances. rewrite offset_snoc. unfold offset. cbn. lia. }
  destruct (code ch =? 0).
  { intros H. injection H as <- <-. split; [apply advances_refl | ].
    intros Hne. contradiction Hne. reflexivity. }
  repeat match goal with
         | |- (if ?x then ScanOk _ _ else _) = _ -> _ =>
             destruct x;
             [intros H; injection H as <- <-;
              split; [apply Hone | intros _; apply Hone] | ]
         end.
  destruct (ch =? quote)%char.
  { destruct (scan_string InText (length (c ++ [ch])) (c ++ [ch]) r)
      as [[] b2 | | ] eqn:Hs; try discriminate.
    intros H. apply lift_value_buffer in H. destruct H as [-> _].
    destruct (scan_string_advances _ _ _ _ _ Hs) as [Ho Hl].
    rewrite length_app in Ho, Hl. unfold advances, offset in *.
    cbn in *. split; [ | intros _]; lia. }
  destruct ((ch =? "-")%char || is_digit ch).
  { destruct (scan_number (mkBuffer c (ch :: r))) as [v b2 | | ] eqn:Hs;
      try discriminate.
    intros H. injection H as <- <-.
    destruct (scan_number_advances _ _ _ Hs) as [Ho Hl].
    unfold advances. split; [ | intros _]; lia. }
  destruct (is_letter ch); [ | discriminate].
  intros H. destruct (scan_literal_advances _ _ _ H) as (Ho & Hl & _).
  unfold advances. split; [ | intros _]; lia.
Qed.

(** The next token starts at or after the cursor and ends at the new
    cursor; unless it is the end of the text it is not empty. *)
Lemma next_token_advances (b b' : Buffer) (pos : nat) (tok : Token) :
  next_token str b = ScanOk (pos, tok) b' ->
  (offset b <= pos <= offset b')%nat
  /\ (tok <> TokEnd -> (pos < offset b')%nat)
  /\ (offset b' + length (unread b') = offset b + length (unread b))%nat.
Proof.
  unfold next_token.
  pose proof (skip_space_advances (consumed b) (unread b)) as [Hs1 Hs2].
  destruct (scan_token str (skip_space (consumed b) (unread b)))
    as [tok' b2 | | ] eqn:Hscan; try discriminate.
  intros H. injection H as <- <- <-.
  destruct (scan_token_advances _ _ _ Hscan) as [[Ha1 Ha2] Hstrict].
  unfold offset in *. cbn in *. repeat split; try lia.
  intros Hne. specialize (Hstrict Hne). lia.
Qed.

End WithBuffer.

End Progress.

(** ** Trees and the cells they depend on *)

Section Frame.

Lemma agree_below_refl (B : Z) (m : Memory) : agree_below B m m.
Proof. intros a _. split; reflexivity. Qed.

Lemma agree_below_trans (B : Z) (m1 m2 m3 : Memory) :
  agree_below B m1 m2 -> agree_below B m2 m3 -> agree_below B m1 m3.
Proof.
  intros H12 H23 a Ha. destruct (H12 a Ha) as [He1 Hp1].
  destruct (H23 a Ha) as [He2 Hp2]. split; congruence.
Qed.

Lemma agree_below_le (B B' : Z) (m m' : Memory) :
  B' <= B -> agree_below B m m' -> agree_below B' m m'.
Proof. intros Hle H a Ha. apply H. lia. Qed.

Lemma agree_below_between (A B B' : Z) (m m' : Memory) :
  B <= B' -> agree_below B' m m' -> agree_between A B m m'.
Proof. intros Hle H a Ha. apply H. lia. Qed.

Lemma agree_between_sub (A B A' B' : Z) (m m' : Memory) :
  A <= A' -> B' <= B -> agree_between A B m m' -> agree_between A' B' m m'.
Proof. intros HA HB H a Ha. apply H. lia. Qed.

(** A tree only depends on the cells in its range. *)
Lemma Repr_frame_mutual (m : Memory) :
  (forall A B v t, Repr m A B v t ->
     forall m', agree_between A B m m' -> Repr m' A B v t)
  /\ (forall A B prev p ts last, ElementList m A B prev p ts last ->
        forall m', agree_between A B m m' ->
                   ElementList m' A B prev p ts last)
  /\ (forall A B prev p ts last, PairList m A B prev p ts last ->
        forall m', agree_between A B m m' -> PairList m' A B prev p ts last).
Proof.
  apply Repr_mutual.
  - intros A B v m' _. apply Repr_scalar.
  - intros A B v p items last Hp _ IH m' Hm.
    eapply Repr_array; [exact Hp | apply IH, Hm].
  - intros A B v p members last Hp _ IH m' Hm.
    eapply Repr_object; [exact Hp | apply IH, Hm].
  - intros A B prev m' _. apply ElementList_nil.
  - intros A B prev p e t ts last Hprev Hpos Hp He _ IHv _ IHl m' Hm.
    eapply ElementList_cons;
      [exact Hprev | exact Hpos | exact Hp | | | apply IHl, Hm].
    + destruct (Hm p ltac:(lia)) as [-> _]. exact He.
    + apply IHv. eapply agree_between_sub; [ | | exact Hm]; lia.
  - intros A B prev m' _. apply PairList_nil.
  - intros A B prev p e t ts last Hprev Hpos Hp He _ IHv _ IHl m' Hm.
    eapply PairList_cons;
      [exact Hprev | exact Hpos | exact Hp | | | apply IHl, Hm].
    + destruct (Hm p ltac:(lia)) as [_ ->]. exact He.
    + apply IHv. eapply agree_between_sub; [ | | exact Hm]; lia.
Qed.

(** The range of a tree can be widened. *)
Lemma Repr_weaken_mutual (m : Memory) :
  (forall A B v t, Repr m A B v t ->
     forall A' B', A' <= A -> B <= B' -> Repr m A' B' v t)
  /\ (forall A B prev p ts last, ElementList m A B prev p ts last ->
        forall A' B', A' <= A -> B <= B' ->
                      ElementList m A' B' prev p ts last)
  /\ (forall A B prev p ts last, PairList m A B prev p ts last ->
        forall A' B', A' <= A -> B <= B' -> PairList m A' B' prev p ts last).
Proof.
  apply Repr_mutual.
  - intros A B v A' B' _ _. apply Repr_scalar.
  - intros A B v p items last Hp _ IH A' B' HA HB.
    eapply Repr_array; [exact Hp | apply IH; assumption].
  - intros A B v p members last Hp _ IH A' B' HA HB.
    eapply Repr_object; [exact Hp | apply IH; assumption].
  - intros A B prev A' B' _ _. apply ElementList_nil.
  - intros A B prev p e t ts last Hprev Hpos Hp He _ IHv _ IHl A' B' HA HB.
    eapply ElementList_cons;
      [exact Hprev | exact Hpos | lia | exact He | apply IHv; lia
      | apply IHl; assumption].
  - intros A B prev A' B' _ _. apply PairList_nil.
  - intros A B prev p e t ts last Hprev Hpos Hp He _ IHv _ IHl A' B' HA HB.
    eapply PairList_cons;
      [exact Hprev | exact Hpos | lia | exact He | apply IHv; lia
      | apply IHl; assumption].
Qed.

(** Both at once: a wider range in a memory that agrees on the old one. *)
Lemma Repr_move (m m' : Memory) (A B A' B' : Z) (v : JsonValue) (t : Tree) :
  Repr m A B v t -> A' <= A -> B <= B' -> agree_between A B m m' ->
  Repr m' A' B' v t.
Proof.
  intros H HA HB Hm.
  apply (proj1 (Repr_weaken_mutual m') A B); [ | exact HA | exact HB].
  exact (proj1 (Repr_frame_mutual m) A B v t H m' Hm).
Qed.

Lemma ElementList_move (m m' : Memory) (A B A' B' prev p last : Z)
    (ts : list Tree) :
  ElementList m A B prev p ts last ->
  A' <= A -> B <= B' -> agree_between A B m m' ->
  ElementList m' A' B' prev p ts last.
Proof.
  intros H HA HB Hm.
  apply (proj1 (proj2 (Repr_weaken_mutual m')) A B); [ | exact HA | exact HB].
  exact (proj1 (proj2 (Repr_frame_mutual m)) A B prev p ts last H m' Hm).
Qed.

Lemma PairList_move (m m' : Memory) (A B A' B' prev p last : Z)
    (ts : list (Z * Tree)) :
  PairList m A B prev p ts last ->
  A' <= A -> B <= B' -> agree_between A B m m' ->
  PairList m' A' B' prev p ts last.
Proof.
  intros H HA HB Hm.
  apply (proj2 (proj2 (Repr_weaken_mutual m')) A B); [ | exact HA | exact HB].
  exact (proj2 (proj2 (Repr_frame_mutual m)) A B prev p ts last H m' Hm).
Qed.

(** The shape of a list: empty at the null pointer, and otherwise ending
    in a cell with a null link at the address [last]. *)
Lemma ElementList_shape (m : Memory) (A B prev p last : Z) (ts : list Tree) :
  ElementList m A B prev p ts last ->
  (p = nullptr /\ ts = [] /\ last = prev)
  \/ (prev < p <= last /\ 0 < p /\ A <= p /\ last < B
      /\ exists e, mem_elements m !! last = Some e
                   /\ element_next e = nullptr).
Proof.
  induction 1 as [A B prev | A B prev p e t ts last Hprev Hpos Hp He Hv Hl IH].
  - left. repeat split.
  - right. destruct IH as [(Hnull & -> & ->) | (Hord & _ & _ & Hlast & IH)].
    + repeat (split; [lia | ]). exists e. split; assumption.
    + repeat (split; [lia | ]). exact IH.
Qed.

Lemma PairList_shape (m : Memory) (A B prev p last : Z)
    (ts : list (Z * Tree)) :
  PairList m A B prev p ts last ->
  (p = nullptr /\ ts = [] /\ last = prev)
  \/ (prev < p <= last /\ 0 < p /\ A <= p /\ last < B
      /\ exists e, mem_pairs m !! last = Some e /\ pair_next e = nullptr).
Proof.
  induction 1 as [A B prev | A B prev p e t ts last Hprev Hpos Hp He Hv Hl IH].
  - left. repeat split.
  - right. destruct IH as [(Hnull & -> & ->) | (Hord & _ & _ & Hlast & IH)].
    + repeat (split; [lia | ]). exists e. split; assumption.
    + repeat (split; [lia | ]). exact IH.
Qed.

(** Linking a new cell behind the last one appends its tree.  The new
    cell lies at [q], above the list and above the cells of its value,
    which lie above the last cell of the list. *)
Lemma ElementList_append (m m' : Memory) (A B B' Av prev p last q : Z)
    (ts : list Tree) (v : JsonValue) (t : Tree) :
  ElementList m A B prev p ts last ->
  p <> nullptr ->
  B <= q < B' -> A <= Av -> last < Av ->
  Repr m Av q v t ->
  mem_elements m'
  = alter (fun e => mkJsonElement q (element_value e)) last
          (<[q := mkJsonElement nullptr v]> (mem_elements m)) ->
  mem_pairs m' = mem_pairs m ->
  ElementList m' A B' prev p (ts ++ [t]) q.
Proof.
  intros Hl Hne Hq HAv Hlast Hv Hel Hpa.
  assert (Hlow : forall X, X <= last -> X <= q -> agree_between A X m m').
  { intros X HX1 HX2 a Ha. rewrite Hel, Hpa. split; [ | reflexivity].
    rewrite lookup_alter_ne, lookup_insert_ne by lia. reflexivity. }
  assert (Hnew : Repr m' A q v t).
  { eapply Repr_move; [exact Hv | exact HAv | lia | ].
    intros a Ha. rewrite Hel, Hpa. split; [ | reflexivity].
    rewrite lookup_alter_ne, lookup_insert_ne by lia. reflexivity. }
  induction Hl as [A B prev | A B prev p e t0 ts last Hprev Hpos Hp He Hv0 Hrest IH];
    [contradiction Hne; reflexivity | ].
  destruct (ElementList_shape _ _ _ _ _ _ _ Hrest)
    as [(Hnull & -> & ->) | (Hord & Hpos' & _ & HlastB & _)].
  - (* [p] is the last cell: its link now leads to the new one *)
    eapply (ElementList_cons m' A B' prev p
              (mkJsonElement q (element_value e))).
    + exact Hprev.
    + exact Hpos.
    + lia.
    + rewrite Hel, lookup_alter_eq, lookup_insert_ne, He by lia. reflexivity.
    + cbn [element_value]. eapply Repr_move; [exact Hv0 | lia | lia | ].
      apply Hlow; lia.
    + cbn [element_next app].
      eapply (ElementList_cons m' A B' p q (mkJsonElement nullptr v));
        [lia | lia | lia | | exact Hnew | apply ElementList_nil].
      rewrite Hel, lookup_alter_ne, lookup_insert_eq by lia. reflexivity.
  - eapply (ElementList_cons m' A B' prev p e).
    + exact Hprev.
    + exact Hpos.
    + lia.
    + rewrite Hel, lookup_alter_ne, lookup_insert_ne, He by lia. reflexivity.
    + eapply Repr_move; [exact Hv0 | lia | lia | ]. apply Hlow; lia.
    + cbn [app]. apply IH; try assumption; try lia.
      unfold nullptr. lia.
Qed.

Lemma PairList_append (m m' : Memory) (A B B' Av prev p last q key : Z)
    (ts : list (Z * Tree)) (v : JsonValue) (t : Tree) :
  PairList m A B prev p ts last ->
  p <> nullptr ->
  B <= q < B' -> A <= Av -> last < Av ->
  Repr m Av q v t ->
  mem_pairs m'
  = alter (fun e => mkJsonPair q (pair_key e) (pair_value e)) last
          (<[q := mkJsonPair nullptr key v]> (mem_pairs m)) ->
  mem_elements m' = mem_elements m ->
  PairList m' A B' prev p (ts ++ [(key, t)]) q.
Proof.
  intros Hl Hne Hq HAv Hlast Hv Hpa Hel.
  assert (Hlow : forall X, X <= last -> X <= q -> agree_between A X m m').
  { intros X HX1 HX2 a Ha. rewrite Hel, Hpa. split; [reflexivity | ].
    rewrite lookup_alter_ne, lookup_insert_ne by lia. reflexivity. }
  assert (Hnew : Repr m' A q v t).
  { eapply Repr_move; [exact Hv | exact HAv | lia | ].
    intros a Ha. rewrite Hel, Hpa. split; [reflexivity | ].
    rewrite lookup_alter_ne, lookup_insert_ne by lia. reflexivity. }
  induction Hl as [A B prev | A B prev p e t0 ts last Hprev Hpos Hp He Hv0 Hrest IH];
    [contradiction Hne; reflexivity | ].
  destruct (PairList_shape _ _ _ _ _ _ _ Hrest)
    as [(Hnull & -> & ->) | (Hord & Hpos' & _ & HlastB & _)].
  - eapply (PairList_cons m' A B' prev p
              (mkJsonPair q (pair_key e) (pair_value e))).
    + exact Hprev.
    + exact Hpos.
    + lia.
    + rewrite Hpa, lookup_alter_eq, lookup_insert_ne, He by lia. reflexivity.
    + cbn [pair_value]. eapply Repr_move; [exact Hv0 | lia | lia | ].
      apply Hlow; lia.
    + cbn [pair_next app].
      eapply (PairList_cons m' A B' p q (mkJsonPair nullptr key v));
        [lia | lia | lia | | exact Hnew | apply PairList_nil].
      rewrite Hpa, lookup_alter_ne, lookup_insert_eq by lia. reflexivity.
  - eapply (PairList_cons m' A B' prev p e).
    + exact Hprev.
    + exact Hpos.
    + lia.
    + rewrite Hpa, lookup_alter_ne, lookup_insert_ne, He by lia. reflexivity.
    + eapply Repr_move; [exact Hv0 | lia | lia | ]. apply Hlow; lia.
    + cbn [app]. apply IH; try assumption; try lia.
      unfold nullptr. lia.
Qed.

End Frame.

(** ** The tokens of a run *)

Lemma derives_no_end :
  (forall l t, derives l t -> ~ In TokEnd l)
  /\ (forall l ts, derives_elements l ts -> ~ In TokEnd l)
  /\ (forall l ms, derives_members l ms -> ~ In TokEnd l).
Proof.
  apply derives_mutual; intros; cbn; rewrite ?in_app_iff; cbn;
    rewrite ?in_app_iff; cbn; intuition discriminate.
Qed.

Section Tokens.

Variable str : Z.

Lemma lex_run_app (b1 b2 b3 : Buffer) (l1 l2 : list (nat * Token)) :
  lex_run str b1 l1 b2 -> lex_run str b2 l2 b3 -> lex_run str b1 (l1 ++ l2) b3.
Proof.
  induction 1 as [ | b b1 b2 t l Ht Hl IH]; intros H2; cbn;
    [exact H2 | ].
  eapply lex_run_cons; [exact Ht | apply IH, H2].
Qed.

Lemma lex_run_one (b b1 : Buffer) (t : nat * Token) :
  next_token str b = ScanOk t b1 -> lex_run str b [t] b1.
Proof. intros H. eapply lex_run_cons; [exact H | apply lex_run_nil]. Qed.

(** The tokens of a run lie one after the other in the text: their
    offsets increase strictly, from the first cursor to the last. *)
Lemma lex_run_increasing (b b' : Buffer) (l : list (nat * Token)) :
  lex_run str b l b' ->
  (forall t, In t l -> snd t <> TokEnd) ->
  StronglySorted lt (map fst l)
  /\ Forall (fun p => (offset b <= p < offset b')%nat) (map fst l)
  /\ (offset b <= offset b')%nat.
Proof.
  induction 1 as [b | b b1 b2 [pos tok] l Ht Hl IH]; intros Hne; cbn.
  - split; [constructor | ]. split; [constructor | lia].
  - destruct (next_token_advances str _ _ _ _ Ht) as (Hpos & Hstrict & _).
    specialize (Hstrict (Hne (pos, tok) (or_introl eq_refl))).
    destruct IH as (Hsorted & Hall & Hle).
    { intros t Hin. apply Hne. right. exact Hin. }
    split; [ | split; [ | lia]].
    + constructor; [exact Hsorted | ].
      eapply List.Forall_impl; [ | exact Hall]. cbn. intros p Hp. lia.
    + constructor; [cbn; lia | ].
      eapply List.Forall_impl; [ | exact Hall]. cbn. intros p Hp. lia.
Qed.

End Tokens.

(** ** The parser builds the document in source order *)

Section Soundness.

Variable JSON_ZONE_SIZE : Z.
Variable str : Z.

Lemma bind_done {A B : Type} (o : Outcome A) (k : A -> State -> Outcome B)
    (b : B) (s' : State) :
  bind o k = Done b s' -> exists a s1, o = Done a s1 /\ k a s1 = Done b s'.
Proof. destruct o; cbn; intros H; try discriminate H. eauto. Qed.

Lemma lex_done (s s1 : State) (t : nat * Token) :
  lex str s = Done t s1 ->
  next_token str (buf s) = ScanOk t (buf s1)
  /\ allocator s1 = allocator s /\ memory s1 = memory s.
Proof.
  unfold lex. destruct (next_token str (buf s)); try discriminate.
  intros H. injection H as <- <-. cbn. repeat split.
Qed.

Lemma lex_done_state (s s1 : State) (t : nat * Token) :
  lex str s = Done t s1 ->
  lex_run str (buf s) [t] (buf s1)
  /\ (state_wf JSON_ZONE_SIZE s -> state_wf JSON_ZONE_SIZE s1)
  /\ state_top s1 = state_top s /\ memory s1 = memory s.
Proof.
  intros H. destruct (lex_done _ _ _ H) as (Ht & Ha & Hm).
  unfold state_wf, state_top. rewrite Ha, Hm.
  split; [apply lex_run_one, Ht | ].
  split; [intros Hw; exact Hw | split; reflexivity].
Qed.

Lemma tagged_done (tag : JsonTag) (p : Z) (s s' : State) (v : JsonValue) :
  tagged tag p s = Done v s' -> s' = s /\ JsonValue_tagged tag p = Some v.
Proof.
  unfold tagged. destruct (JsonValue_tagged tag p); try discriminate.
  intros H. injection H as <- <-. split; reflexivity.
Qed.

(** A pointer stored with a tag other than [JSON_TAG_NUMBER] is read
    back with its tag. *)
Lemma tagged_read_back (tag : JsonTag) (p : Z) (v : JsonValue) :
  JsonTag_wf tag -> tag <> JSON_TAG_NUMBER -> 0 <= p < 2 ^ 64 ->
  JsonValue_tagged tag p = Some v ->
  getTag v = tag /\ getPayload v = Some p.
Proof.
  intros Ht Hne Hp Hv.
  destruct (JsonValue_tagged_inv tag p v Ht Hv) as [Hx Hw].
  assert (Hu : u64 p = p) by (unfold u64; apply Z.mod_small; lia).
  rewrite Hu in Hx, Hw. destruct v as [w]. cbn [data_i] in Hw. subst w.
  split; [apply getTag_boxed; assumption | ].
  rewrite getPayload_not_double.
  - cbn [data_i]. rewrite boxed_payload_field by assumption. reflexivity.
  - apply getTag_not_number. rewrite getTag_boxed by assumption. exact Hne.
Qed.

Lemma tagged_array_pointer (p : Z) (v : JsonValue) :
  0 <= p < 2 ^ 64 -> JsonValue_tagged JSON_TAG_ARRAY p = Some v ->
  toElement v = Some p.
Proof.
  intros Hp Hv.
  destruct (tagged_read_back JSON_TAG_ARRAY p v) as [Ht Hpl];
    [unfold JsonTag_wf, JSON_TAG_ARRAY; lia | discriminate | exact Hp
    | exact Hv | ].
  unfold toElement. rewrite Ht. exact Hpl.
Qed.

Lemma tagged_object_pointer (p : Z) (v : JsonValue) :
  0 <= p < 2 ^ 64 -> JsonValue_tagged JSON_TAG_OBJECT p = Some v ->
  toPair v = Some p.
Proof.
  intros Hp Hv.
  destruct (tagged_read_back JSON_TAG_OBJECT p v) as [Ht Hpl];
    [unfold JsonTag_wf, JSON_TAG_OBJECT; lia | discriminate | exact Hp
    | exact Hv | ].
  unfold toPair. rewrite Ht. exact Hpl.
Qed.

(** The arena only looks at the zones and the host's mark. *)
Lemma arena_cells_irrelevant (a : JsonAllocator) (m m' : Memory) :
  mem_brk m' = mem_brk m -> mem_zones m' = mem_zones m ->
  (arena_wf JSON_ZONE_SIZE a m -> arena_wf JSON_ZONE_SIZE a m')
  /\ arena_top a m' = arena_top a m.
Proof.
  intros Hb Hz. unfold arena_wf, arena_top. rewrite Hb, Hz. tauto.
Qed.

Lemma state_top_bounds (s : State) :
  state_wf JSON_ZONE_SIZE s -> 0 < state_top s <= 2 ^ 64.
Proof.
  intros Hwf. pose proof (arena_top_bounds _ _ _ Hwf) as Ht.
  destruct Hwf as [Hbrk _]. unfold state_top. lia.
Qed.

(** Appending a cell: the list grows at its end by the tree of the new
    value, and nothing below the list is touched. *)
Lemma append_element_spec (hd tl : Z) (v : JsonValue) (s s2 : State)
    (ht : Z * Z) (A Av : Z) (ts : list Tree) (t : Tree) :
  state_wf JSON_ZONE_SIZE s -> A <= Av -> Av <= state_top s -> tl < Av ->
  ElementList (memory s) A (state_top s) nullptr hd ts tl ->
  Repr (memory s) Av (state_top s) v t ->
  append_element JSON_ZONE_SIZE hd tl v s = Done ht s2 ->
  state_wf JSON_ZONE_SIZE s2 /\ state_top s <= state_top s2 /\ buf s2 = buf s
  /\ agree_below A (memory s) (memory s2)
  /\ ElementList (memory s2) A (state_top s2) nullptr (fst ht)
                 (ts ++ [t]) (snd ht).
Proof.
  intros Hwf HA HAv Htl Hlist Hv. unfold append_element, new_element.
  destruct (allocate JSON_ZONE_SIZE (allocator s) (memory s)
                     sizeof_JsonElement 8) as [[[q a'] m'] | ] eqn:Hal;
    [ | discriminate].
  destruct (allocate_spec JSON_ZONE_SIZE _ _ _ _ sizeof_JsonElement 8 _
              Hwf eq_refl eq_refl Hal)
    as (Hq & Htop' & Hspace & Hwf' & Hel & Hpa).
  unfold sizeof_JsonElement in *.
  pose proof (state_top_bounds s Hwf) as Htop.
  unfold state_top in *.
  cbn [bind].
  set (m1 := mkMemory (mem_brk m') (mem_zones m')
               (<[q := mkJsonElement nullptr v]> (mem_elements m'))
               (mem_pairs m')).
  destruct (arena_cells_irrelevant a' m' m1 eq_refl eq_refl) as [Hwf1 Htop1].
  rewrite Htop' in Htop1.
  destruct (ElementList_shape _ _ _ _ _ _ _ Hlist)
    as [(-> & -> & ->) | (Hord & Hpos & HAhd & HtlB & _)].
  - cbn. intros H. injection H as <- <-.
    cbn [fst snd memory allocator buf app]. unfold state_wf, state_top.
    cbn [memory allocator]. rewrite Htop1.
    split; [apply Hwf1, Hwf' | ]. split; [lia | ]. split; [reflexivity | ].
    split.
    + intros a Ha. subst m1. cbn [mem_elements mem_pairs].
      rewrite Hel, Hpa, lookup_insert_ne by lia. split; reflexivity.
    + eapply (ElementList_cons m1 A (q + 16) nullptr q
                (mkJsonElement nullptr v));
        [unfold nullptr; lia | lia | lia | | | apply ElementList_nil].
      * subst m1. cbn [mem_elements]. apply lookup_insert_eq.
      * cbn [element_value]. eapply Repr_move; [exact Hv | lia | lia | ].
        intros a Ha. subst m1. cbn [mem_elements mem_pairs].
        rewrite Hel, Hpa, lookup_insert_ne by lia. split; reflexivity.
  - destruct (tl =? nullptr) eqn:Hnull;
      [apply Z.eqb_eq in Hnull; unfold nullptr in *; lia | ].
    intros H. injection H as <- <-.
    cbn [fst snd]. unfold link_element, state_wf, state_top.
    cbn [memory allocator buf].
    set (m2 := mkMemory (mem_brk m1) (mem_zones m1)
                 (alter (fun e => mkJsonElement q (element_value e)) tl
                        (mem_elements m1)) (mem_pairs m1)).
    destruct (arena_cells_irrelevant a' m1 m2 eq_refl eq_refl)
      as [Hwf2 Htop2].
    rewrite Htop1 in Htop2. rewrite Htop2.
    split; [apply Hwf2, Hwf1, Hwf' | ]. split; [lia | ].
    split; [reflexivity | ]. split.
    + intros a Ha. subst m2 m1. cbn [mem_elements mem_pairs].
      rewrite Hel, Hpa, lookup_alter_ne, lookup_insert_ne by lia.
      split; reflexivity.
    + eapply (ElementList_append (memory s) m2 A _ (q + 16) Av);
        [exact Hlist | unfold nullptr; lia | lia | exact HA | exact Htl
        | | | ].
      * eapply Repr_move; [exact Hv | lia | lia | ].
        intros a _. split; reflexivity.
      * subst m2 m1. cbn [mem_elements]. rewrite Hel. reflexivity.
      * subst m2 m1. cbn [mem_pairs]. exact Hpa.
Qed.

Lemma append_pair_spec (hd tl key : Z) (v : JsonValue) (s s2 : State)
    (ht : Z * Z) (A Av : Z) (ts : list (Z * Tree)) (t : Tree) :
  state_wf JSON_ZONE_SIZE s -> A <= Av -> Av <= state_top s -> tl < Av ->
  PairList (memory s) A (state_top s) nullptr hd ts tl ->
  Repr (memory s) Av (state_top s) v t ->
  append_pair JSON_ZONE_SIZE hd tl key v s = Done ht s2 ->
  state_wf JSON_ZONE_SIZE s2 /\ state_top s <= state_top s2 /\ buf s2 = buf s
  /\ agree_below A (memory s) (memory s2)
  /\ PairList (memory s2) A (state_top s2) nullptr (fst ht)
              (ts ++ [(key, t)]) (snd ht).
Proof.
  intros Hwf HA HAv Htl Hlist Hv. unfold append_pair, new_pair.
  destruct (allocate JSON_ZONE_SIZE (allocator s) (memory s)
                     sizeof_JsonPair 8) as [[[q a'] m'] | ] eqn:Hal;
    [ | discriminate].
  destruct (allocate_spec JSON_ZONE_SIZE _ _ _ _ sizeof_JsonPair 8 _
              Hwf eq_refl eq_refl Hal)
    as (Hq & Htop' & Hspace & Hwf' & Hel & Hpa).
  unfold sizeof_JsonPair in *.
  pose proof (state_top_bounds s Hwf) as Htop.
  unfold state_top in *.
  cbn [bind].
  set (m1 := mkMemory (mem_brk m') (mem_zones m') (mem_elements m')
               (<[q := mkJsonPair nullptr key v]> (mem_pairs m'))).
  destruct (arena_cells_irrelevant a' m' m1 eq_refl eq_refl) as [Hwf1 Htop1].
  rewrite Htop' in Htop1.
  destruct (PairList_shape _ _ _ _ _ _ _ Hlist)
    as [(-> & -> & ->) | (Hord & Hpos & HAhd & HtlB & _)].
  - cbn. intros H. injection H as <- <-.
    cbn [fst snd memory allocator buf app]. unfold state_wf, state_top.
    cbn [memory allocator]. rewrite Htop1.
    split; [apply Hwf1, Hwf' | ]. split; [lia | ]. split; [reflexivity | ].
    split.
    + intros a Ha. subst m1. cbn [mem_elements mem_pairs].
      rewrite Hel, Hpa, lookup_insert_ne by lia. split; reflexivity.
    + eapply (PairList_cons m1 A (q + 24) nullptr q
                (mkJsonPair nullptr key v));
        [unfold nullptr; lia | lia | lia | | | apply PairList_nil].
      * subst m1. cbn [mem_pairs]. apply lookup_insert_eq.
      * cbn [pair_value]. eapply Repr_move; [exact Hv | lia | lia | ].
        intros a Ha. subst m1. cbn [mem_elements mem_pairs].
        rewrite Hel, Hpa, lookup_insert_ne by lia. split; reflexivity.
  - destruct (tl =? nullptr) eqn:Hnull;
      [apply Z.eqb_eq in Hnull; unfold nullptr in *; lia | ].
    intros H. injection H as <- <-.
    cbn [fst snd]. unfold link_pair, state_wf, state_top.
    cbn [memory allocator buf].
    set (m2 := mkMemory (mem_brk m1) (mem_zones m1) (mem_elements m1)
                 (alter (fun e => mkJsonPair q (pair_key e) (pair_value e))
                        tl (mem_pairs m1))).
    destruct (arena_cells_irrelevant a' m1 m2 eq_refl eq_refl)
      as [Hwf2 Htop2].
    rewrite Htop1 in Htop2. rewrite Htop2.
    split; [apply Hwf2, Hwf1, Hwf' | ]. split; [lia | ].
    split; [reflexivity | ]. split.
    + intros a Ha. subst m2 m1. cbn [mem_elements mem_pairs].
      rewrite Hel, Hpa, lookup_alter_ne, lookup_insert_ne by lia.
      split; reflexivity.
    + eapply (PairList_append (memory s) m2 A _ (q + 24) Av);
        [exact Hlist | unfold nullptr; lia | lia | exact HA | exact Htl
        | | | ].
      * eapply Repr_move; [exact Hv | lia | lia | ].
        intros a _. split; reflexivity.
      * subst m2 m1. cbn [mem_pairs]. rewrite Hpa. reflexivity.
      * subst m2 m1. cbn [mem_elements]. exact Hel.
Qed.

Lemma parse_value_sound_step (fuel : nat) :
  (forall t hd tl s v s' A ts0,
      state_wf JSON_ZONE_SIZE s -> A <= state_top s ->
      ElementList (memory s) A (state_top s) nullptr hd ts0 tl ->
      parse_elements JSON_ZONE_SIZE str fuel t hd tl s = Done v s' ->
      elements_post JSON_ZONE_SIZE str s t A ts0 v s') ->
  (forall t hd tl s v s' A ms0,
      state_wf JSON_ZONE_SIZE s -> A <= state_top s ->
      PairList (memory s) A (state_top s) nullptr hd ms0 tl ->
      parse_members JSON_ZONE_SIZE str fuel t hd tl s = Done v s' ->
      members_post JSON_ZONE_SIZE str s t A ms0 v s') ->
  forall t s v s',
    state_wf JSON_ZONE_SIZE s ->
    parse_value JSON_ZONE_SIZE str (S fuel) t s = Done v s' ->
    value_post JSON_ZONE_SIZE str s t v s'.
Proof.
  intros IHe IHm [pos tok] s v s' Hwf H. cbn [parse_value snd] in H.
  destruct tok; try (unfold unexpected in H; cbn in H; discriminate H).
  - (* a scalar *)
    injection H as <- <-. exists [], (Scalar v0).
    split; [apply lex_run_nil | ]. split; [apply derives_scalar | ].
    split; [apply Repr_scalar | ]. split; [exact Hwf | ].
    split; [lia | apply agree_below_refl].
  - (* an array *)
    apply bind_done in H. destruct H as (t1 & s1 & Hlex & H).
    destruct (lex_done_state _ _ _ Hlex) as (Hrun & Hwf1 & Htop1 & Hm1).
    specialize (Hwf1 Hwf).
    assert (Hcases : (snd t1 = TokRBracket
                      /\ tagged JSON_TAG_ARRAY nullptr s1 = Done v s')
                     \/ parse_elements JSON_ZONE_SIZE str fuel t1
                          nullptr nullptr s1 = Done v s')
      by (destruct (snd t1); auto).
    clear H. destruct Hcases as [[Ht1 H] | H].
    + apply tagged_done in H. destruct H as [-> Hv].
      exists [t1], (Array []). cbn [map snd]. rewrite Ht1.
      split; [exact Hrun | ]. split; [apply derives_empty_array | ].
      split.
      { eapply Repr_array; [ | apply ElementList_nil].
        apply tagged_array_pointer; [unfold nullptr; lia | exact Hv]. }
      split; [exact Hwf1 | ]. rewrite Htop1, Hm1.
      split; [lia | apply agree_below_refl].
    + destruct (IHe t1 nullptr nullptr s1 v s' (state_top s1) [] Hwf1
                  ltac:(lia) (ElementList_nil _ _ _ _) H)
        as (l & items & Hl & Hd & Hr & Hwf' & Hle & Hag).
      exists (t1 :: l), (Array items). cbn [map snd].
      split; [eapply lex_run_app with (l1 := [t1]); eassumption | ].
      split; [apply derives_array, Hd | ].
      rewrite Htop1, Hm1 in *.
      split; [exact Hr | ]. split; [exact Hwf' | ].
      split; [exact Hle | exact Hag].
  - (* an object *)
    apply bind_done in H. destruct H as (t1 & s1 & Hlex & H).
    destruct (lex_done_state _ _ _ Hlex) as (Hrun & Hwf1 & Htop1 & Hm1).
    specialize (Hwf1 Hwf).
    assert (Hcases : (snd t1 = TokRBrace
                      /\ tagged JSON_TAG_OBJECT nullptr s1 = Done v s')
                     \/ parse_members JSON_ZONE_SIZE str fuel t1
                          nullptr nullptr s1 = Done v s')
      by (destruct (snd t1); auto).
    clear H. destruct Hcases as [[Ht1 H] | H].
    + apply tagged_done in H. destruct H as [-> Hv].
      exists [t1], (Object []). cbn [map snd]. rewrite Ht1.
      split; [exact Hrun | ]. split; [apply derives_empty_object | ].
      split.
      { eapply Repr_object; [ | apply PairList_nil].
        apply tagged_object_pointer; [unfold nullptr; lia | exact Hv]. }
      split; [exact Hwf1 | ]. rewrite Htop1, Hm1.
      split; [lia | apply agree_below_refl].
    + destruct (IHm t1 nullptr nullptr s1 v s' (state_top s1) [] Hwf1
                  ltac:(lia) (PairList_nil _ _ _ _) H)
        as (l & items & Hl & Hd & Hr & Hwf' & Hle & Hag).
      exists (t1 :: l), (Object items). cbn [map snd].
      split; [eapply lex_run_app with (l1 := [t1]); eassumption | ].
      split; [apply derives_object, Hd | ].
      rewrite Htop1, Hm1 in *.
      split; [exact Hr | ]. split; [exact Hwf' | ].
      split; [exact Hle | exact Hag].
Qed.

Lemma parse_elements_sound_step (fuel : nat) :
  (forall t s v s',
      state_wf JSON_ZONE_SIZE s -> parse_value JSON_ZONE_SIZE str fuel t s = Done v s' ->
      value_post JSON_ZONE_SIZE str s t v s') ->
  (forall t hd tl s v s' A ts0,
      state_wf JSON_ZONE_SIZE s -> A <= state_top s ->
      ElementList (memory s) A (state_top s) nullptr hd ts0 tl ->
      parse_elements JSON_ZONE_SIZE str fuel t hd tl s = Done v s' ->
      elements_post JSON_ZONE_SIZE str s t A ts0 v s') ->
  forall t hd tl s v s' A ts0,
    state_wf JSON_ZONE_SIZE s -> A <= state_top s ->
    ElementList (memory s) A (state_top s) nullptr hd ts0 tl ->
    parse_elements JSON_ZONE_SIZE str (S fuel) t hd tl s = Done v s' ->
    elements_post JSON_ZONE_SIZE str s t A ts0 v s'.
Proof.
  intros IHv IHe t hd tl s v s' A ts0 Hwf HA Hlist H.
  cbn [parse_elements] in H.
  apply bind_done in H. destruct H as (v1 & s1 & Hval & H).
  apply bind_done in H. destruct H as (ht & s2 & Happ & H).
  apply bind_done in H. destruct H as (t1 & s3 & Hlex & H).
  (* the element *)
  destruct (IHv t s v1 s1 Hwf Hval)
    as (l1 & tree1 & Hl1 & Hd1 & Hr1 & Hwf1 & Hle1 & Hag1).
  pose proof (state_top_bounds s Hwf) as Htop.
  assert (Htl : tl < state_top s).
  { destruct (ElementList_shape _ _ _ _ _ _ _ Hlist)
      as [(_ & _ & ->) | (_ & _ & _ & Hlt & _)];
      [unfold nullptr; lia | exact Hlt]. }
  assert (Hlist1 : ElementList (memory s1) A (state_top s1) nullptr hd ts0 tl).
  { eapply ElementList_move; [exact Hlist | lia | exact Hle1 | ].
    eapply agree_below_between; [ | exact Hag1]. lia. }
  (* its cell *)
  destruct (append_element_spec hd tl v1 s1 s2 ht A (state_top s) ts0 tree1
              Hwf1 HA Hle1 Htl Hlist1 Hr1 Happ)
    as (Hwf2 & Hle2 & Hbuf2 & Hag2 & Hlist2).
  (* the token after it *)
  destruct (lex_done_state _ _ _ Hlex) as (Hrun3 & Hwf3 & Htop3 & Hm3).
  specialize (Hwf3 Hwf2). rewrite Hbuf2 in Hrun3.
  assert (Hag3 : agree_below A (memory s) (memory s3)).
  { rewrite Hm3. eapply agree_below_trans; [ | exact Hag2].
    eapply agree_below_le; [ | exact Hag1]. exact HA. }
  assert (Hcases :
    (snd t1 = TokComma
     /\ (do t2, s4 <- lex str s3;
         parse_elements JSON_ZONE_SIZE str fuel t2 (fst ht) (snd ht) s4)
        = Done v s')
    \/ (snd t1 = TokRBracket
        /\ tagged JSON_TAG_ARRAY (fst ht) s3 = Done v s'))
    by (destruct (snd t1); first [discriminate H | auto]).
  clear H. destruct Hcases as [[Ht1 H] | [Ht1 H]].
  - (* a comma: the other elements follow *)
    apply bind_done in H. destruct H as (t2 & s4 & Hlex4 & H).
    destruct (lex_done_state _ _ _ Hlex4) as (Hrun4 & Hwf4 & Htop4 & Hm4).
    specialize (Hwf4 Hwf3).
    assert (Hlist4 : ElementList (memory s4) A (state_top s4) nullptr
                       (fst ht) (ts0 ++ [tree1]) (snd ht))
      by (rewrite Hm4, Htop4, Hm3, Htop3; exact Hlist2).
    destruct (IHe t2 (fst ht) (snd ht) s4 v s' A (ts0 ++ [tree1]) Hwf4
                ltac:(rewrite Htop4, Htop3; lia) Hlist4 H)
      as (l2 & items & Hl2 & Hd2 & Hr2 & Hwf' & Hle' & Hag').
    exists (l1 ++ t1 :: t2 :: l2), (tree1 :: items).
    split.
    { eapply lex_run_app; [exact Hl1 | ].
      eapply lex_run_app with (l1 := [t1]); [exact Hrun3 | ].
      eapply lex_run_app with (l1 := [t2]); [exact Hrun4 | exact Hl2]. }
    split.
    { rewrite map_app. cbn [map]. rewrite Ht1.
      change (snd t :: map snd l1 ++ TokComma :: snd t2 :: map snd l2)
        with ((snd t :: map snd l1) ++ TokComma :: snd t2 :: map snd l2).
      apply derives_more_elements; assumption. }
    split.
    { rewrite <- app_assoc in Hr2. exact Hr2. }
    split; [exact Hwf' | ].
    split; [rewrite Htop4, Htop3 in Hle'; lia | ].
    eapply agree_below_trans; [exact Hag3 | ]. rewrite <- Hm4. exact Hag'.
  - (* the closing bracket *)
    apply tagged_done in H. destruct H as [-> Hv].
    exists (l1 ++ [t1]), [tree1].
    split; [eapply lex_run_app; [exact Hl1 | exact Hrun3] | ].
    split.
    { rewrite map_app. cbn [map]. rewrite Ht1.
      change (snd t :: map snd l1 ++ [TokRBracket])
        with ((snd t :: map snd l1) ++ [TokRBracket]).
      apply derives_last_element. exact Hd1. }
    pose proof (state_top_bounds s2 Hwf2) as Htop2.
    split.
    { rewrite Hm3, Htop3. eapply Repr_array; [ | exact Hlist2].
      apply tagged_array_pointer; [ | exact Hv].
      destruct (ElementList_shape _ _ _ _ _ _ _ Hlist2)
        as [(_ & Hnil & _) | (Hord & Hpos & _ & Hlt & _)];
        [destruct ts0; discriminate Hnil | lia]. }
    split; [exact Hwf3 | ]. split; [rewrite Htop3; lia | exact Hag3].
Qed.

Lemma parse_members_sound_step (fuel : nat) :
  (forall t s v s',
      state_wf JSON_ZONE_SIZE s -> parse_value JSON_ZONE_SIZE str fuel t s = Done v s' ->
      value_post JSON_ZONE_SIZE str s t v s') ->
  (forall t hd tl s v s' A ms0,
      state_wf JSON_ZONE_SIZE s -> A <= state_top s ->
      PairList (memory s) A (state_top s) nullptr hd ms0 tl ->
      parse_members JSON_ZONE_SIZE str fuel t hd tl s = Done v s' ->
      members_post JSON_ZONE_SIZE str s t A ms0 v s') ->
  forall t hd tl s v s' A ms0,
    state_wf JSON_ZONE_SIZE s -> A <= state_top s ->
    PairList (memory s) A (state_top s) nullptr hd ms0 tl ->
    parse_members JSON_ZONE_SIZE str (S fuel) t hd tl s = Done v s' ->
    members_post JSON_ZONE_SIZE str s t A ms0 v s'.
Proof.
  intros IHv IHm [pos tok] hd tl s v s' A ms0 Hwf HA Hlist H.
  cbn [parse_members snd] in H.
  destruct tok as [k | | | | | | | ];
    try (unfold unexpected in H; cbn in H; discriminate H).
  destruct (getTag k =? JSON_TAG_STRING); [ | discriminate H].
  destruct (toString k) as [key | ] eqn:Hkey; [ | discriminate H].
  apply bind_done in H. destruct H as (t1 & s1 & Hlex1 & H).
  assert (Hcolon : snd t1 = TokColon).
  { unfold unexpected in H.
    destruct (snd t1); first [reflexivity | discriminate H]. }
  rewrite Hcolon in H.
  apply bind_done in H. destruct H as (t2 & s2 & Hlex2 & H).
  apply bind_done in H. destruct H as (v1 & s3 & Hval & H).
  apply bind_done in H. destruct H as (ht & s4 & Happ & H).
  apply bind_done in H. destruct H as (t3 & s5 & Hlex5 & H).
  (* the colon and the first token of the value *)
  destruct (lex_done_state _ _ _ Hlex1) as (Hrun1 & Hwf1 & Htop1 & Hm1).
  specialize (Hwf1 Hwf).
  destruct (lex_done_state _ _ _ Hlex2) as (Hrun2 & Hwf2 & Htop2 & Hm2).
  specialize (Hwf2 Hwf1).
  (* the value *)
  destruct (IHv t2 s2 v1 s3 Hwf2 Hval)
    as (l2 & tree1 & Hl2 & Hd2 & Hr2 & Hwf3 & Hle3 & Hag3).
  rewrite Htop2, Htop1, Hm2, Hm1 in *.
  pose proof (state_top_bounds s Hwf) as Htop.
  assert (Htl : tl < state_top s).
  { destruct (PairList_shape _ _ _ _ _ _ _ Hlist)
      as [(_ & _ & ->) | (_ & _ & _ & Hlt & _)];
      [unfold nullptr; lia | exact Hlt]. }
  assert (Hlist3 : PairList (memory s3) A (state_top s3) nullptr hd ms0 tl).
  { eapply PairList_move; [exact Hlist | lia | exact Hle3 | ].
    eapply agree_below_between; [ | exact Hag3]. lia. }
  (* its cell *)
  destruct (append_pair_spec hd tl key v1 s3 s4 ht A (state_top s) ms0 tree1
              Hwf3 HA Hle3 Htl Hlist3 Hr2 Happ)
    as (Hwf4 & Hle4 & Hbuf4 & Hag4 & Hlist4).
  (* the token after it *)
  destruct (lex_done_state _ _ _ Hlex5) as (Hrun5 & Hwf5 & Htop5 & Hm5).
  specialize (Hwf5 Hwf4). rewrite Hbuf4 in Hrun5.
  assert (Hag5 : agree_below A (memory s) (memory s5)).
  { rewrite Hm5. eapply agree_below_trans; [ | exact Hag4].
    eapply agree_below_le; [ | exact Hag3]. exact HA. }
  assert (Hrun : lex_run str (buf s) (t1 :: t2 :: l2 ++ [t3]) (buf s5)).
  { eapply lex_run_app with (l1 := [t1]); [exact Hrun1 | ].
    eapply lex_run_app with (l1 := [t2]); [exact Hrun2 | ].
    eapply lex_run_app; [exact Hl2 | exact Hrun5]. }
  assert (Hcases :
    (snd t3 = TokComma
     /\ (do t4, s6 <- lex str s5;
         parse_members JSON_ZONE_SIZE str fuel t4 (fst ht) (snd ht) s6)
        = Done v s')
    \/ (snd t3 = TokRBrace
        /\ tagged JSON_TAG_OBJECT (fst ht) s5 = Done v s'))
    by (destruct (snd t3); first [discriminate H | auto]).
  clear H. destruct Hcases as [[Ht3 H] | [Ht3 H]].
  - (* a comma: the other members follow *)
    apply bind_done in H. destruct H as (t4 & s6 & Hlex6 & H).
    destruct (lex_done_state _ _ _ Hlex6) as (Hrun6 & Hwf6 & Htop6 & Hm6).
    specialize (Hwf6 Hwf5).
    assert (Hlist6 : PairList (memory s6) A (state_top s6) nullptr
                       (fst ht) (ms0 ++ [(key, tree1)]) (snd ht))
      by (rewrite Hm6, Htop6, Hm5, Htop5; exact Hlist4).
    destruct (IHm t4 (fst ht) (snd ht) s6 v s' A (ms0 ++ [(key, tree1)]) Hwf6
                ltac:(rewrite Htop6, Htop5; lia) Hlist6 H)
      as (l4 & members & Hl4 & Hd4 & Hr4 & Hwf' & Hle' & Hag').
    exists ((t1 :: t2 :: l2 ++ [t3]) ++ t4 :: l4), ((key, tree1) :: members).
    split.
    { eapply lex_run_app; [exact Hrun | ].
      eapply lex_run_app with (l1 := [t4]); [exact Hrun6 | exact Hl4]. }
    split.
    { cbn [map app snd]. rewrite map_app, map_app. cbn [map].
      rewrite Hcolon, Ht3, <- app_assoc. cbn [app].
      change (TokValue k :: TokColon :: snd t2 :: map snd l2
                ++ TokComma :: snd t4 :: map snd l4)
        with (TokValue k :: TokColon :: (snd t2 :: map snd l2)
                ++ TokComma :: snd t4 :: map snd l4).
      apply derives_more_members; assumption. }
    split.
    { rewrite <- app_assoc in Hr4. exact Hr4. }
    split; [exact Hwf' | ].
    split; [rewrite Htop6, Htop5 in Hle'; lia | ].
    eapply agree_below_trans; [exact Hag5 | ]. rewrite <- Hm6. exact Hag'.
  - (* the closing brace *)
    apply tagged_done in H. destruct H as [-> Hv].
    exists (t1 :: t2 :: l2 ++ [t3]), [(key, tree1)].
    split; [exact Hrun | ].
    split.
    { cbn [map snd]. rewrite map_app. cbn [map].
      rewrite Hcolon, Ht3.
      change (TokValue k :: TokColon :: snd t2 :: map snd l2 ++ [TokRBrace])
        with (TokValue k :: TokColon :: (snd t2 :: map snd l2)
                ++ [TokRBrace]).
      apply derives_last_member; assumption. }
    pose proof (state_top_bounds s4 Hwf4) as Htop4.
    split.
    { rewrite Hm5, Htop5. eapply Repr_object; [ | exact Hlist4].
      apply tagged_object_pointer; [ | exact Hv].
      destruct (PairList_shape _ _ _ _ _ _ _ Hlist4)
        as [(_ & Hnil & _) | (Hord & Hpos & _ & Hlt & _)];
        [destruct ms0; discriminate Hnil | lia]. }
    split; [exact Hwf5 | ]. split; [rewrite Htop5; lia | exact Hag5].
Qed.

(** The three parsers are sound, by induction on the recursion budget. *)
Lemma parse_sound (fuel : nat) :
  (forall t s v s',
      state_wf JSON_ZONE_SIZE s -> parse_value JSON_ZONE_SIZE str fuel t s = Done v s' ->
      value_post JSON_ZONE_SIZE str s t v s')
  /\ (forall t hd tl s v s' A ts0,
        state_wf JSON_ZONE_SIZE s -> A <= state_top s ->
        ElementList (memory s) A (state_top s) nullptr hd ts0 tl ->
        parse_elements JSON_ZONE_SIZE str fuel t hd tl s = Done v s' ->
        elements_post JSON_ZONE_SIZE str s t A ts0 v s')
  /\ (forall t hd tl s v s' A ms0,
        state_wf JSON_ZONE_SIZE s -> A <= state_top s ->
        PairList (memory s) A (state_top s) nullptr hd ms0 tl ->
        parse_members JSON_ZONE_SIZE str fuel t hd tl s = Done v s' ->
        members_post JSON_ZONE_SIZE str s t A ms0 v s').
Proof.
  induction fuel as [ | fuel (IHv & IHe & IHm)].
  - repeat split; intros; discriminate.
  - split; [apply parse_value_sound_step; assumption | ].
    split; [apply parse_elements_sound_step; assumption
           | apply parse_members_sound_step; assumption].
Qed.

Lemma StronglySorted_snoc (l : list nat) (x : nat) :
  StronglySorted lt l -> Forall (fun p => (p < x)%nat) l ->
  StronglySorted lt (l ++ [x]).
Proof.
  induction 1 as [ | p l Hs IH Hp]; intros Hall; cbn.
  - repeat constructor.
  - apply Forall_cons in Hall. destruct Hall as [Hpx Hall].
    constructor; [apply IH, Hall | ].
    apply Forall_app. split; [exact Hp | repeat constructor; exact Hpx].
Qed.

(** C6.  Source order is preserved.  When [json_parse] succeeds, the
    text reads, token after token at strictly increasing offsets, as a
    sequence of tokens followed by the end of the text; these tokens,
    from left to right, spell a document, and the value returned is the
    root of that very document in memory: following the [next] links of
    an array or of an object visits its elements or members in the order
    in which the text has them.  The cells all come from the arena during
    the call, and the cells that existed before are as they were. *)
Theorem json_parse_source_order
    (text : list ascii) (a : JsonAllocator) (m : Memory)
    (v : JsonValue) (s' : State) :
  arena_wf JSON_ZONE_SIZE a m ->
  json_parse JSON_ZONE_SIZE str text a m = Done v s' ->
  exists toks end_pos tree,
    lex_run str (mkBuffer [] text) (toks ++ [(end_pos, TokEnd)]) (buf s')
    /\ StronglySorted lt (map fst toks ++ [end_pos])
    /\ derives (map snd toks) tree
    /\ Repr (memory s') (arena_top a m) (state_top s') v tree
    /\ agree_below (arena_top a m) m (memory s').
Proof.
  intros Hwf H. unfold json_parse in H.
  set (s0 := mkState (mkBuffer [] text) a m) in H.
  apply bind_done in H. destruct H as (t & s1 & Hlex1 & H).
  destruct (lex_done_state _ _ _ Hlex1) as (Hrun1 & Hwf1 & Htop1 & Hm1).
  specialize (Hwf1 Hwf).
  assert (H' : (do v, s2 <- parse_value JSON_ZONE_SIZE str
                              (2 * length text + 2) t s1;
                do t2, s3 <- lex str s2;
                match snd t2 with
                | TokEnd => Done v s3
                | _ => Failed JSON_PARSE_MISMATCH_BRACKET (fst t2) s3
                end) = Done v s')
    by (destruct (snd t); first [discriminate H | exact H]).
  clear H. apply bind_done in H'. destruct H' as (v1 & s2 & Hval & H).
  apply bind_done in H. destruct H as ([end_pos tok2] & s3 & Hlex3 & H).
  cbn [snd fst] in H.
  assert (Hend : tok2 = TokEnd /\ v1 = v /\ s3 = s').
  { destruct tok2; try discriminate H. injection H as -> ->. repeat split. }
  clear H. destruct Hend as (-> & -> & ->).
  destruct (lex_done_state _ _ _ Hlex3) as (Hrun3 & _ & Htop3 & Hm3).
  destruct (proj1 (parse_sound _) t s1 v s2 Hwf1 Hval)
    as (l & tree & Hl & Hd & Hr & Hwf2 & Hle & Hag).
  assert (Hrun : lex_run str (buf s0) (t :: l) (buf s2))
    by (eapply lex_run_app with (l1 := [t]); eassumption).
  exists (t :: l), end_pos, tree.
  split; [eapply lex_run_app; [exact Hrun | exact Hrun3] | ].
  split.
  { destruct (lex_run_increasing str _ _ _ Hrun) as (Hsorted & Hall & _).
    - intros t' Hin Hend.
      apply (proj1 derives_no_end _ _ Hd).
      change (snd t :: map snd l) with (map snd (t :: l)).
      rewrite <- Hend. apply in_map, Hin.
    - apply StronglySorted_snoc; [exact Hsorted | ].
      destruct (lex_done _ _ _ Hlex3) as (Ht3 & _).
      destruct (next_token_advances str _ _ _ _ Ht3) as (Hpos & _).
      eapply List.Forall_impl; [ | exact Hall]. cbn. intros p Hp. lia. }
  split; [exact Hd | ].
  unfold state_top in *. rewrite Htop3, Hm3.
  rewrite Htop1 in Hr, Hag. rewrite Hm1 in Hag.
  split; [exact Hr | exact Hag].
Qed.

(** *** The recursion budget suffices *)

Lemma bind_fuel {A B : Type} (o : Outcome A) (k : A -> State -> Outcome B) :
  o <> OutOfFuel ->
  (forall a s1, o = Done a s1 -> k a s1 <> OutOfFuel) ->
  bind o k <> OutOfFuel.
Proof.
  intros Ho Hk. destruct o; cbn; try discriminate; [ | contradiction].
  apply Hk. reflexivity.
Qed.

Lemma lex_fuel (s : State) : lex str s <> OutOfFuel.
Proof. unfold lex. destruct (next_token str (buf s)); discriminate. Qed.

Lemma tagged_fuel (tag : JsonTag) (p : Z) (s : State) :
  tagged tag p s <> OutOfFuel.
Proof. unfold tagged. destruct (JsonValue_tagged tag p); discriminate. Qed.

Lemma append_element_fuel (hd tl : Z) (v : JsonValue) (s : State) :
  append_element JSON_ZONE_SIZE hd tl v s <> OutOfFuel.
Proof.
  unfold append_element, new_element.
  destruct (allocate _ _ _ _ _) as [[[q a'] m'] | ]; cbn; [ | discriminate].
  destruct (tl =? nullptr); discriminate.
Qed.

Lemma append_pair_fuel (hd tl key : Z) (v : JsonValue) (s : State) :
  append_pair JSON_ZONE_SIZE hd tl key v s <> OutOfFuel.
Proof.
  unfold append_pair, new_pair.
  destruct (allocate _ _ _ _ _) as [[[q a'] m'] | ]; cbn; [ | discriminate].
  destruct (tl =? nullptr); discriminate.
Qed.

Lemma unexpected_fuel (t : nat * Token) (s : State) :
  @unexpected JsonValue t s <> OutOfFuel.
Proof. unfold unexpected. destruct (snd t); discriminate. Qed.

(** A token other than the end of the text uses up at least one byte. *)
Lemma lex_unread (s s1 : State) (t : nat * Token) :
  lex str s = Done t s1 ->
  (unread_length s1 <= unread_length s)%nat
  /\ (snd t <> TokEnd -> (unread_length s1 < unread_length s)%nat).
Proof.
  intros H. destruct (lex_done _ _ _ H) as (Ht & _). destruct t as [pos tok].
  destruct (next_token_advances str _ _ _ _ Ht) as (Hpos & Hstrict & Hlen).
  unfold unread_length. split; [lia | ].
  intros Hne. specialize (Hstrict Hne). lia.
Qed.

Lemma lex_run_unread (b b' : Buffer) (l : list (nat * Token)) :
  lex_run str b l b' -> (length (unread b') <= length (unread b))%nat.
Proof.
  induction 1 as [ | b b1 b2 [pos tok] l Ht Hl IH]; [lia | ].
  destruct (next_token_advances str _ _ _ _ Ht) as (Hpos & _ & Hlen). lia.
Qed.

Lemma budget_end (t : nat * Token) (u : nat) :
  snd t = TokEnd -> budget t u = 1%nat.
Proof. unfold budget. intros ->. reflexivity. Qed.

Lemma budget_le (t : nat * Token) (u : nat) : (budget t u <= 2 * u + 3)%nat.
Proof. unfold budget. destruct (snd t); lia. Qed.

(** The budget for the token read by [lex] and the bytes left after it
    is below the budget before by two, whatever the token. *)
Lemma budget_after_lex (s s1 : State) (t : nat * Token) (n : nat) :
  lex str s = Done t s1 ->
  (2 * unread_length s + 3 <= n)%nat ->
  (budget t (unread_length s1) + 2 <= n)%nat.
Proof.
  intros Hlex Hn. destruct (lex_unread _ _ _ Hlex) as [Hle Hlt].
  unfold budget. destruct (snd t) eqn:Ht;
    try (specialize (Hlt ltac:(discriminate)); lia).
  lia.
Qed.

Lemma parse_fuel (fuel : nat) :
  (forall t s,
      state_wf JSON_ZONE_SIZE s -> (budget t (unread_length s) <= fuel)%nat ->
      parse_value JSON_ZONE_SIZE str fuel t s <> OutOfFuel)
  /\ (forall t hd tl s A ts0,
        state_wf JSON_ZONE_SIZE s -> A <= state_top s ->
        ElementList (memory s) A (state_top s) nullptr hd ts0 tl ->
        (S (budget t (unread_length s)) <= fuel)%nat ->
        parse_elements JSON_ZONE_SIZE str fuel t hd tl s <> OutOfFuel)
  /\ (forall t hd tl s A ms0,
        state_wf JSON_ZONE_SIZE s -> A <= state_top s ->
        PairList (memory s) A (state_top s) nullptr hd ms0 tl ->
        (S (budget t (unread_length s)) <= fuel)%nat ->
        parse_members JSON_ZONE_SIZE str fuel t hd tl s <> OutOfFuel).
Proof.
  induction fuel as [ | fuel (IHv & IHe & IHm)].
  { split; [ | split]; intros; try lia.
    exfalso. unfold budget in *. destruct (snd t); lia. }
  destruct (parse_sound fuel) as (Sv & Se & Sm).
  split; [ | split].
  - (* a value *)
    intros [pos tok] s Hwf Hfuel. cbn [parse_value snd].
    destruct tok; try apply unexpected_fuel; try discriminate.
    + apply bind_fuel; [apply lex_fuel | ]. intros t1 s1 Hlex.
      destruct (lex_done_state _ _ _ Hlex) as (_ & Hwf1 & Htop1 & Hm1).
      pose proof (budget_after_lex s s1 t1 (S fuel) Hlex
                    ltac:(exact Hfuel)) as Hb.
      assert (Hlist : parse_elements JSON_ZONE_SIZE str fuel t1
                        nullptr nullptr s1 <> OutOfFuel).
      { eapply (IHe t1 nullptr nullptr s1 (state_top s1) []);
          [apply Hwf1, Hwf | lia | apply ElementList_nil | lia]. }
      destruct (snd t1); first [exact Hlist | apply tagged_fuel].
    + apply bind_fuel; [apply lex_fuel | ]. intros t1 s1 Hlex.
      destruct (lex_done_state _ _ _ Hlex) as (_ & Hwf1 & Htop1 & Hm1).
      pose proof (budget_after_lex s s1 t1 (S fuel) Hlex
                    ltac:(exact Hfuel)) as Hb.
      assert (Hlist : parse_members JSON_ZONE_SIZE str fuel t1
                        nullptr nullptr s1 <> OutOfFuel).
      { eapply (IHm t1 nullptr nullptr s1 (state_top s1) []);
          [apply Hwf1, Hwf | lia | apply PairList_nil | lia]. }
      destruct (snd t1); first [exact Hlist | apply tagged_fuel].
  - (* the elements of an array *)
    intros t hd tl s A ts0 Hwf HA Hlist Hfuel. cbn [parse_elements].
    apply bind_fuel; [apply IHv; [exact Hwf | lia] | ].
    intros v1 s1 Hval.
    destruct (Sv t s v1 s1 Hwf Hval)
      as (l1 & tree1 & Hl1 & Hd1 & Hr1 & Hwf1 & Hle1 & Hag1).
    pose proof (lex_run_unread _ _ _ Hl1) as Hu1.
    assert (Hne : snd t <> TokEnd).
    { intros Hend. apply (proj1 derives_no_end _ _ Hd1). left. exact Hend. }
    assert (Hbig : (2 * unread_length s + 3 <= fuel)%nat).
    { unfold budget in Hfuel. destruct (snd t); first [lia | contradiction]. }
    apply bind_fuel; [apply append_element_fuel | ]. intros ht s2 Happ.
    pose proof (state_top_bounds s Hwf) as Htop.
    assert (Htl : tl < state_top s).
    { destruct (ElementList_shape _ _ _ _ _ _ _ Hlist)
        as [(_ & _ & ->) | (_ & _ & _ & Hlt & _)];
        [unfold nullptr; lia | exact Hlt]. }
    assert (Hlist1 : ElementList (memory s1) A (state_top s1) nullptr
                       hd ts0 tl).
    { eapply ElementList_move; [exact Hlist | lia | exact Hle1 | ].
      eapply agree_below_between; [ | exact Hag1]. lia. }
    destruct (append_element_spec hd tl v1 s1 s2 ht A (state_top s) ts0 tree1
                Hwf1 HA Hle1 Htl Hlist1 Hr1 Happ)
      as (Hwf2 & Hle2 & Hbuf2 & Hag2 & Hlist2).
    apply bind_fuel; [apply lex_fuel | ]. intros t1 s3 Hlex3.
    destruct (lex_done_state _ _ _ Hlex3) as (_ & Hwf3 & Htop3 & Hm3).
    destruct (lex_unread _ _ _ Hlex3) as [Hu3 _].
    assert (Hu2 : unread_length s2 = unread_length s1)
      by (unfold unread_length; rewrite Hbuf2; reflexivity).
    unfold unread_length in *.
    assert (Hmore :
      (do t2, s4 <- lex str s3;
       parse_elements JSON_ZONE_SIZE str fuel t2 (fst ht) (snd ht) s4)
      <> OutOfFuel).
    { apply bind_fuel; [apply lex_fuel | ]. intros t2 s4 Hlex4.
      destruct (lex_done_state _ _ _ Hlex4) as (_ & Hwf4 & Htop4 & Hm4).
      pose proof (budget_after_lex s3 s4 t2 fuel Hlex4) as Hb.
      unfold unread_length in Hb.
      eapply (IHe t2 (fst ht) (snd ht) s4 A (ts0 ++ [tree1]));
        [apply Hwf4, Hwf3, Hwf2 | rewrite Htop4, Htop3; lia
        | rewrite Hm4, Htop4, Hm3, Htop3; exact Hlist2 | ].
      unfold unread_length. lia. }
    destruct (snd t1);
      first [exact Hmore | apply tagged_fuel | discriminate].
  - (* the members of an object *)
    intros [pos tok] hd tl s A ms0 Hwf HA Hlist Hfuel.
    cbn [parse_members snd].
    destruct tok as [k | | | | | | | ];
      try apply unexpected_fuel.
    destruct (getTag k =? JSON_TAG_STRING); [ | discriminate].
    destruct (toString k) as [key | ]; [ | discriminate].
    assert (Hbig : (2 * unread_length s + 3 <= fuel)%nat)
      by (unfold budget in Hfuel; cbn in Hfuel; lia).
    apply bind_fuel; [apply lex_fuel | ]. intros t1 s1 Hlex1.
    destruct (lex_done_state _ _ _ Hlex1) as (_ & Hwf1 & Htop1 & Hm1).
    destruct (lex_unread _ _ _ Hlex1) as [Hu1 _].
    assert (Hrest :
      (do t2, s2 <- lex str s1;
       do v, s3 <- parse_value JSON_ZONE_SIZE str fuel t2 s2;
       do ht, s4 <- append_pair JSON_ZONE_SIZE hd tl key v s3;
       do t3, s5 <- lex str s4;
       match snd t3 with
       | TokComma =>
           do t4, s6 <- lex str s5;
           parse_members JSON_ZONE_SIZE str fuel t4 (fst ht) (snd ht) s6
       | TokRBrace => tagged JSON_TAG_OBJECT (fst ht) s5
       | TokRBracket | TokEnd =>
           Failed JSON_PARSE_MISMATCH_BRACKET (fst t3) s5
       | _ => Failed JSON_PARSE_UNEXPECTED_CHARACTER (fst t3) s5
       end) <> OutOfFuel).
    { apply bind_fuel; [apply lex_fuel | ]. intros t2 s2 Hlex2.
      destruct (lex_done_state _ _ _ Hlex2) as (_ & Hwf2 & Htop2 & Hm2).
      destruct (lex_unread _ _ _ Hlex2) as [Hu2 _].
      specialize (Hwf2 (Hwf1 Hwf)).
      pose proof (budget_le t2 (unread_length s2)) as Hb2.
      apply bind_fuel; [apply IHv; [exact Hwf2 | lia] | ].
      intros v1 s3 Hval.
      destruct (Sv t2 s2 v1 s3 Hwf2 Hval)
        as (l2 & tree1 & Hl2 & Hd2 & Hr2 & Hwf3 & Hle3 & Hag3).
      pose proof (lex_run_unread _ _ _ Hl2) as Hu3.
      rewrite Htop2, Htop1, Hm2, Hm1 in *.
      apply bind_fuel; [apply append_pair_fuel | ]. intros ht s4 Happ.
      pose proof (state_top_bounds s Hwf) as Htop.
      assert (Htl : tl < state_top s).
      { destruct (PairList_shape _ _ _ _ _ _ _ Hlist)
          as [(_ & _ & ->) | (_ & _ & _ & Hlt & _)];
          [unfold nullptr; lia | exact Hlt]. }
      assert (Hlist3 : PairList (memory s3) A (state_top s3) nullptr
                         hd ms0 tl).
      { eapply PairList_move; [exact Hlist | lia | exact Hle3 | ].
        eapply agree_below_between; [ | exact Hag3]. lia. }
      destruct (append_pair_spec hd tl key v1 s3 s4 ht A (state_top s) ms0
                  tree1 Hwf3 HA Hle3 Htl Hlist3 Hr2 Happ)
        as (Hwf4 & Hle4 & Hbuf4 & Hag4 & Hlist4).
      apply bind_fuel; [apply lex_fuel | ]. intros t3 s5 Hlex5.
      destruct (lex_done_state _ _ _ Hlex5) as (_ & Hwf5 & Htop5 & Hm5).
      destruct (lex_unread _ _ _ Hlex5) as [Hu5 _].
      assert (Hu4 : unread_length s4 = unread_length s3)
        by (unfold unread_length; rewrite Hbuf4; reflexivity).
      unfold unread_length in *.
      assert (Hmore :
        (do t4, s6 <- lex str s5;
         parse_members JSON_ZONE_SIZE str fuel t4 (fst ht) (snd ht) s6)
        <> OutOfFuel).
      { apply bind_fuel; [apply lex_fuel | ]. intros t4 s6 Hlex6.
        destruct (lex_done_state _ _ _ Hlex6) as (_ & Hwf6 & Htop6 & Hm6).
        pose proof (budget_after_lex s5 s6 t4 fuel Hlex6) as Hb.
        unfold unread_length in Hb.
        eapply (IHm t4 (fst ht) (snd ht) s6 A (ms0 ++ [(key, tree1)]));
          [apply Hwf6, Hwf5, Hwf4 | rewrite Htop6, Htop5; lia
          | rewrite Hm6, Htop6, Hm5, Htop5; exact Hlist4 | ].
        unfold unread_length. lia. }
      destruct (snd t3);
        first [exact Hmore | apply tagged_fuel | discriminate]. }
    destruct (snd t1); first [exact Hrest | apply unexpected_fuel].
Qed.

(** [json_parse] never runs out of its recursion budget: it ends with a
    value, with one of the seven errors, or with an abort. *)
Lemma json_parse_fuel (text : list ascii) (a : JsonAllocator) (m : Memory) :
  arena_wf JSON_ZONE_SIZE a m ->
  json_parse JSON_ZONE_SIZE str text a m <> OutOfFuel.
Proof.
  intros Hwf. unfold json_parse.
  set (s0 := mkState (mkBuffer [] text) a m).
  apply bind_fuel; [apply lex_fuel | ]. intros t s1 Hlex.
  destruct (lex_done_state _ _ _ Hlex) as (_ & Hwf1 & _).
  destruct (lex_unread _ _ _ Hlex) as [Hu Hlt].
  assert (Hrest :
    snd t <> TokEnd ->
    (do v, s2 <- parse_value JSON_ZONE_SIZE str (2 * length text + 2) t s1;
     do t2, s3 <- lex str s2;
     match snd t2 with
     | TokEnd => Done v s3
     | _ => Failed JSON_PARSE_MISMATCH_BRACKET (fst t2) s3
     end) <> OutOfFuel).
  { intros Hne. specialize (Hlt Hne).
    pose proof (budget_le t (unread_length s1)) as Hb.
    unfold unread_length in *. subst s0. cbn [buf unread] in *.
    apply bind_fuel; [apply (proj1 (parse_fuel _)); [apply Hwf1, Hwf | ] | ].
    - unfold unread_length. lia.
    - intros v s2 _. apply bind_fuel; [apply lex_fuel | ].
      intros t2 s3 _. destruct (snd t2); discriminate. }
  destruct (snd t); first [discriminate | apply Hrest; discriminate].
Qed.

End Soundness.

(** ** Iterating over the result *)

Section Iteration.

(** Iterating over a list of cells visits the values of its trees, in
    the order of the trees. *)
Lemma element_values_order (m : Memory) (A B prev p last : Z)
    (ts : list Tree) (fuel : nat) :
  ElementList m A B prev p ts last -> (length ts <= fuel)%nat ->
  Forall2 (fun v t => Repr m A B v t) (element_values fuel m p) ts.
Proof.
  intros H. revert fuel.
  induction H as [A B prev | A B prev p e t ts last Hprev Hpos Hp He Hv Hl IH];
    intros fuel Hfuel.
  - destruct fuel; cbn; constructor.
  - destruct fuel as [ | fuel]; [cbn in Hfuel; lia | ].
    cbn [element_values].
    destruct (p =? nullptr) eqn:Hnull;
      [apply Z.eqb_eq in Hnull; unfold nullptr in Hnull; lia | ].
    rewrite He. constructor.
    + eapply (proj1 (Repr_weaken_mutual m)); [exact Hv | lia | lia].
    + apply IH. cbn in Hfuel. lia.
Qed.

Lemma pair_entries_order (m : Memory) (A B prev p last : Z)
    (ms : list (Z * Tree)) (fuel : nat) :
  PairList m A B prev p ms last -> (length ms <= fuel)%nat ->
  Forall2 (fun kv kt => fst kv = fst kt /\ Repr m A B (snd kv) (snd kt))
          (pair_entries fuel m p) ms.
Proof.
  intros H. revert fuel.
  induction H as [A B prev | A B prev p e t ts last Hprev Hpos Hp He Hv Hl IH];
    intros fuel Hfuel.
  - destruct fuel; cbn; constructor.
  - destruct fuel as [ | fuel]; [cbn in Hfuel; lia | ].
    cbn [pair_entries].
    destruct (p =? nullptr) eqn:Hnull;
      [apply Z.eqb_eq in Hnull; unfold nullptr in Hnull; lia | ].
    rewrite He. constructor.
    + split; [reflexivity | ]. cbn [snd].
      eapply (proj1 (Repr_weaken_mutual m)); [exact Hv | lia | lia].
    + apply IH. cbn in Hfuel. lia.
Qed.

End Iteration.

(** ** The parser at work *)

Section Runs.

Import Examples.

(** [[3,1,2]] is iterated as 3, 1, 2. *)
Example array_in_source_order :
  array_numbers (parse "[3,1,2]") = Some [double_3; double_1; double_2].
Proof. vm_compute. reflexivity. Qed.

(** [{"a":1,"b":2}] is iterated as a, b. *)
Example object_in_source_order :
  object_numbers (parse "{'a':1,'b':2}")
  = Some [("a"%string, double_1); ("b"%string, double_2)].
Proof. vm_compute. reflexivity. Qed.

(** Duplicate keys stay distinct members, in their order. *)
Example duplicate_keys_kept :
  object_numbers (parse "{ 'k' : 2, 'k' : 1 }")
  = Some [("k"%string, double_2); ("k"%string, double_1)].
Proof. vm_compute. reflexivity. Qed.

(** The error kinds and positions of section 8. *)
Example error_positions :
  status_and_offset "{'a':}" = (Some JSON_PARSE_UNEXPECTED_CHARACTER, Some 5)
  /\ parse_status (parse "[1,2") = Some JSON_PARSE_MISMATCH_BRACKET
  /\ parse_status (parse "01") = Some JSON_PARSE_BAD_NUMBER
  /\ parse_status (parse "1.2.3") = Some JSON_PARSE_BAD_NUMBER
  /\ parse_status (parse "{'a': tru}") = Some JSON_PARSE_UNKNOWN_IDENTIFIER
  /\ parse_status (parse "'\u004'") = Some JSON_PARSE_BAD_STRING
  /\ parse_status (parse "1e400") = Some JSON_PARSE_OVERFLOW
  /\ parse_status (parse "1e-400") = Some JSON_PARSE_UNDERFLOW.
Proof. vm_compute. repeat split. Qed.

(** Escapes are decoded in place. *)
Example escapes_decoded :
  match parse "'a\nb\u0041'" with
  | Done v s =>
      p ← toString v; Some (map code (list_ascii_of_string
                                         (string_at 0x10000 (buf s) p)))
  | _ => None
  end = Some [97; 10; 98; 65].
Proof. vm_compute. reflexivity. Qed.

End Runs.

Lemma json_parse_source_order_witness :
  exists v s',
    json_parse 4096 0x10000 (Examples.json_text "[3,[1,{'a':2}]]")
               (mkJsonAllocator nullptr) (mkMemory 0x20000 ∅ ∅ ∅)
    = Done v s'
    /\ exists toks end_pos tree,
        lex_run 0x10000 (mkBuffer [] (Examples.json_text "[3,[1,{'a':2}]]"))
                (toks ++ [(end_pos, TokEnd)]) (buf s')
        /\ StronglySorted lt (map fst toks ++ [end_pos])
        /\ derives (map snd toks) tree
        /\ Repr (memory s')
                (arena_top (mkJsonAllocator nullptr) (mkMemory 0x20000 ∅ ∅ ∅))
                (state_top s') v tree
        /\ agree_below
             (arena_top (mkJsonAllocator nullptr) (mkMemory 0x20000 ∅ ∅ ∅))
             (mkMemory 0x20000 ∅ ∅ ∅) (memory s').
Proof.
  eexists _, _. split; [vm_compute; reflexivity | ].
  apply (json_parse_source_order 4096 0x10000
           (Examples.json_text "[3,[1,{'a':2}]]")
           (mkJsonAllocator nullptr) (mkMemory 0x20000 ∅ ∅ ∅)).
  - split; [cbn; lia | left; reflexivity].
  - vm_compute. reflexivity.
Defined.
